(** * The batching queue consumer of [ex04_async_queue_processor]

    A shallow embedding of [solution_queue_processor.py]:

    - [InMemoryQueue.receive_batch], with Python's slice reads and slice
      deletions on the pending list written out;
    - [process_queue_forever], as a transition system over the suspension
      points of the coroutine (the sleep inside [receive_batch], the
      back-off sleep and the join on [asyncio.gather]), driven by the
      events an asyncio event loop can deliver: a resumption of the loop
      coroutine, a resumption of one handler task, a run of a callback
      that [gather] attached to a handler task, and a [Task.cancel()] on
      the loop's task.

    The asyncio operations the source calls ([sleep], [gather], task
    cancellation) are modelled after CPython's [asyncio.tasks]: what
    [Task.cancel], [Task.__step], [_GatheringFuture.cancel] and gather's
    [_done_callback] do.  The event loop may deliver its events in any
    order, which covers every order the real scheduler can produce.  Time
    is not modelled: a sleep is a suspension point that the event loop
    may resume at any later moment.  A run starts when the coroutine is
    entered; a task cancelled before its first step never enters it. *)

From Stdlib Require Import ZArith Lia.
From stdpp Require Import base tactics option list strings.

Local Open Scope Z_scope.

(** ** Python list slices *)

Section slices.
Context {A : Type}.

(** The stop index of [l[:n]] after Python's normalisation: a negative
    [n] counts from the end, and the result is clamped to [0 .. len l]. *)
Definition slice_stop (l : list A) (n : Z) : nat :=
  let len := Z.of_nat (length l) in
  Z.to_nat (if n <? 0 then Z.max 0 (len + n) else Z.min n len).

(** [l[:n]] *)
Definition slice_to (l : list A) (n : Z) : list A := take (slice_stop l n) l.

(** the list after [del l[:n]] *)
Definition del_slice_to (l : list A) (n : Z) : list A := drop (slice_stop l n) l.

(** [not l]: an empty list is falsy. *)
Definition is_empty (l : list A) : bool :=
  match l with [] => true | _ :: _ => false end.
End slices.

(** ** Exceptions and awaits *)

(** The exceptions the loop can see: asyncio's [CancelledError], and any
    other exception, which only a handler can raise. *)
Inductive exn :=
  | CancelledError
  | HandlerError (reason : string).

(** How a call or a coroutine ends. *)
Inductive result (A : Type) :=
  | Returned (a : A)
  | Raised (e : exn).
Arguments Returned {A} a.
Arguments Raised {A} e.

(** What a suspended coroutine sees when the event loop resumes it at an
    [await]: the awaited operation completed, or [CancelledError] is thrown
    into it. *)
Inductive wakeup := Completed | Cancelled.

(** ** InMemoryQueue *)

Record InMemoryQueue := { messages : list string }.

(** The body of [receive_batch] after its sleep (lines 37-43): the batch
    returned and the queue as the call leaves it. *)
Definition take_batch (q : InMemoryQueue) (batch_size : Z)
    : list string * InMemoryQueue :=
  if (batch_size <=? 0) || is_empty (messages q) then ([], q)
  else (slice_to (messages q) batch_size,
        {| messages := del_slice_to (messages q) batch_size |}).

(** [receive_batch]: [await asyncio.sleep(0.1)] (line 35), then the body.
    A cancellation delivered at the sleep raises out of the call before
    the queue is touched. *)
Definition receive_batch (w : wakeup) (q : InMemoryQueue) (batch_size : Z)
    : result (list string) * InMemoryQueue :=
  match w with
  | Cancelled => (Raised CancelledError, q)
  | Completed => let '(batch, q') := take_batch q batch_size in (Returned batch, q')
  end.

(** A sequence of [receive_batch] calls on one queue, none of them
    cancelled: each call's batch with the queue as that call left it. *)
Fixpoint receive_batches (q : InMemoryQueue) (sizes : list Z)
    : list (list string * InMemoryQueue) :=
  match sizes with
  | [] => []
  | n :: sizes' =>
      let '(batch, q') := take_batch q n in
      (batch, q') :: receive_batches q' sizes'
  end.

(** Number of messages handed out by the calls before call [i]: the
    position in the original pending sequence where call [i] starts. *)
Definition delivered_before (trace : list (list string * InMemoryQueue)) (i : nat) : nat :=
  length (concat (take i (trace.*1))).

(** ** Handler coroutines and tasks *)

(** One invocation of a handler, as the coroutine object [handler(message)]:
    it returns, raises, or suspends at an [await].  A suspended coroutine
    is resumed either normally (continuation [k]) or with [CancelledError]
    thrown at the [await] (continuation [h]; a handler with no [try]
    around the [await] has [h = Raise CancelledError]). *)
Inductive coro :=
  | Return
  | Raise (e : exn)
  | Await (k : coro) (h : coro).

(** [MessageHandler]: any async callable from a message. *)
Definition MessageHandler := string → coro.

(** An asyncio task wrapping a handler coroutine.  [cancelling] is set by
    [Task.cancel()] and makes the next resumption throw [CancelledError]
    into the coroutine; a task cancelled before its first step never runs
    its coroutine. *)
Inductive task :=
  | NotStarted (c : coro) (cancelling : bool)
  | Suspended (k h : coro) (cancelling : bool)
  | Finished (r : result unit).

(** Run a coroutine until it suspends or ends. *)
Definition run_coro (c : coro) : task :=
  match c with
  | Return => Finished (Returned ())
  | Raise e => Finished (Raised e)
  | Await k h => Suspended k h false
  end.

(** One step of a task ([Task.__step]). *)
Definition resume_task (t : task) : task :=
  match t with
  | NotStarted c false => run_coro c
  | NotStarted _ true => Finished (Raised CancelledError)
  | Suspended k _ false => run_coro k
  | Suspended _ h true => run_coro h
  | Finished r => Finished r
  end.

(** [Task.cancel()] on a handler task. *)
Definition cancel_task (t : task) : task :=
  match t with
  | NotStarted c _ => NotStarted c true
  | Suspended k h _ => Suspended k h true
  | Finished r => Finished r
  end.

Definition is_finished (t : task) : bool :=
  match t with Finished _ => true | _ => false end.

(** Size of what a coroutine or task can still run, on any path. *)
Fixpoint coro_size (c : coro) : nat :=
  match c with
  | Return | Raise _ => 0
  | Await k h => S (Nat.max (coro_size k) (coro_size h))
  end.

Definition task_size (t : task) : nat :=
  match t with
  | NotStarted c _ => S (coro_size c)
  | Suspended k h _ => S (Nat.max (coro_size k) (coro_size h))
  | Finished _ => 0
  end.


(** ** [receive_batch] over untyped values *)

(** The body of [receive_batch] run on Python values as they are at run
    time, where nothing enforces the annotations [batch_size: int] and
    [messages: list[str]]: every operation of lines 37-42 checks its
    operands and can raise [TypeError].  The values are [None], booleans,
    integers, strings and lists. *)
Module Py.

#[warnings="-register-all"] Inductive value :=
  | VNone
  | VBool (b : bool)
  | VInt (z : Z)
  | VStr (s : string)
  | VList (l : list value).

Inductive exception :=
  | CancelledError
  | TypeError.

(** Exceptions propagate through a sequence of statements. *)
#[export] Instance exception_bind : MBind (sum exception) :=
  λ A B k m, match m with inl e => inl e | inr a => k a end.

(** [x <= k] for an integer literal [k]: defined for integers (a [bool]
    is one), [TypeError] for [None], a string or a list. *)
Definition le_int (x : value) (k : Z) : exception + bool :=
  match x with
  | VBool b => inr (Z.b2z b <=? k)
  | VInt z => inr (z <=? k)
  | VNone | VStr _ | VList _ => inl TypeError
  end.

(** Truth value of an object; [not x] is its negation and never
    raises. *)
Definition truthy (x : value) : bool :=
  match x with
  | VNone => false
  | VBool b => b
  | VInt z => negb (z =? 0)
  | VStr s => negb (String.eqb s "")
  | VList l => negb (is_empty l)
  end.

(** The stop of a slice [x[:k]]: [None] (no stop) or an integer, taken
    with [__index__]; anything else is a [TypeError]. *)
Definition slice_index (k : value) : exception + option Z :=
  match k with
  | VNone => inr None
  | VBool b => inr (Some (Z.b2z b))
  | VInt z => inr (Some z)
  | VStr _ | VList _ => inl TypeError
  end.

Definition upto {A} (l : list A) (stop : option Z) : list A :=
  match stop with
  | None => l
  | Some n => slice_to l n
  end.

Definition without {A} (l : list A) (stop : option Z) : list A :=
  match stop with
  | None => []
  | Some n => del_slice_to l n
  end.

(** [x[:k]]: lists and strings can be sliced, with any integer as stop;
    [None], booleans and integers are not subscriptable. *)
Definition getslice (x k : value) : exception + value :=
  match x with
  | VList l => stop ← slice_index k; inr (VList (upto l stop))
  | VStr s =>
      stop ← slice_index k;
      inr (VStr (String.string_of_list_ascii (upto (String.list_ascii_of_string s) stop)))
  | VNone | VBool _ | VInt _ => inl TypeError
  end.

(** What [x] is after [del x[:k]]: only a list supports the deletion. *)
Definition delslice (x k : value) : exception + value :=
  match x with
  | VList l => stop ← slice_index k; inr (VList (without l stop))
  | VNone | VBool _ | VInt _ | VStr _ => inl TypeError
  end.

(** Lines 37-43 on [self.messages] and [batch_size]: what the body
    returns or raises, with the value of [self.messages] afterwards. *)
Definition body (self_messages batch_size : value) : exception + value * value :=
  nonpositive ← le_int batch_size 0;
  if nonpositive || negb (truthy self_messages) then inr (VList [], self_messages)
  else
    batch ← getslice self_messages batch_size;
    rest ← delslice self_messages batch_size;
    inr (batch, rest).

(** [receive_batch]: the sleep of line 35, then the body.  An exception
    leaves [self.messages] as it was: the only statement that changes it
    is the [del], the last one that can raise. *)
Definition receive_batch (w : wakeup) (self_messages batch_size : value)
    : (exception + value) * value :=
  match w with
  | Cancelled => (inl CancelledError, self_messages)
  | Completed =>
      match body self_messages batch_size with
      | inl e => (inl e, self_messages)
      | inr (batch, rest) => (inr batch, rest)
      end
  end.

(** A queue that honours its annotation [list[str]]. *)
Definition of_messages (l : list string) : value := VList (VStr <$> l).

End Py.
(** ** The polling loop as a transition system *)

(** Where the coroutine of [process_queue_forever] is suspended, or how it
    ended. *)
Inductive location :=
  | AtFetchSleep     (* line 62, inside receive_batch at line 35 *)
  | AtBackoffSleep   (* line 64 *)
  | AtGather         (* line 69 *)
  | Stopped (r : result unit).

Record state := {
  queue : InMemoryQueue;
  loc : location;
  must_cancel : bool;      (* a cancellation is pending on the loop's task *)
  tasks : list task;       (* every handler task created so far, oldest first *)
  calls : list string;     (* the messages the handler was called with, in order *)
  base : nat;              (* index in [tasks] of the first child of the latest gather *)
  outer : option (result unit);       (* the latest gather future; [None]: pending *)
  cancel_requested : bool;            (* its [_cancel_requested] *)
  completions : list (nat * result unit);
      (* its children, in the order they reached a terminal state *)
  callbacks : list (nat * result unit)
      (* the done-callbacks of its children that are scheduled and have
         not run yet, oldest first *)
}.

(** The children of the latest gather. *)
Definition children (st : state) : list task := drop (base st) (tasks st).
Arguments children : simpl never.

(** The events of the event loop that concern the polling loop. *)
Inductive event :=
  | ResumeMain              (* the loop coroutine is resumed *)
  | ResumeChild (i : nat)   (* handler task [i] is resumed *)
  | RunCallback             (* the oldest scheduled gather callback runs *)
  | Cancel.                 (* [cancel()] on the loop's task *)

(** The first failure of a completion log, with the child it came from. *)
Fixpoint first_failure (log : list (nat * result unit)) : option (nat * exn) :=
  match log with
  | [] => None
  | (_, Returned _) :: log' => first_failure log'
  | (i, Raised e) :: _ => Some (i, e)
  end.

(** [except asyncio.CancelledError: return] (lines 70-72): how the
    coroutine ends when [e] is raised inside the [try]. *)
Definition except_clause (e : exn) : result unit :=
  match e with
  | CancelledError => Returned ()
  | HandlerError _ => Raised e
  end.

Definition stop (r : result unit) (st : state) : state :=
  {| queue := queue st; loc := Stopped r; must_cancel := false;
     tasks := tasks st; calls := calls st; base := base st; outer := outer st;
     cancel_requested := cancel_requested st; completions := completions st;
     callbacks := callbacks st |}.

Definition goto (l : location) (q : InMemoryQueue) (st : state) : state :=
  {| queue := q; loc := l; must_cancel := must_cancel st;
     tasks := tasks st; calls := calls st; base := base st; outer := outer st;
     cancel_requested := cancel_requested st; completions := completions st;
     callbacks := callbacks st |}.

(** [asyncio.gather] on the coroutines, followed by [await]: one new task per
    coroutine, none of them started yet, and a fresh future that the loop
    coroutine waits on.  With no coroutine at all the future is born done. *)
Definition gather (coros : list coro) (st : state) : state :=
  {| queue := queue st; loc := AtGather; must_cancel := must_cancel st;
     tasks := tasks st ++ map (λ c, NotStarted c false) coros;
     calls := calls st;
     base := length (tasks st);
     outer := if is_empty coros then Some (Returned ()) else None;
     cancel_requested := false;
     completions := [];
     callbacks := [] |}.

(** A child of the gather has ended with [r]: its done-callback is
    scheduled ([call_soon]); it runs at a later turn of the event loop. *)
Definition completed (i : nat) (r : result unit) (st : state) : state :=
  {| queue := queue st; loc := loc st; must_cancel := must_cancel st;
     tasks := tasks st; calls := calls st; base := base st;
     outer := outer st; cancel_requested := cancel_requested st;
     completions := completions st ++ [(i, r)];
     callbacks := callbacks st ++ [(i, r)] |}.

(** The callback gather attaches to each child ([_done_callback], with
    [return_exceptions=False]), run for a child that ended with [r] while
    the callbacks [rest] are still scheduled.  A future that is settled
    stays as it is.  A child that ended with an exception (a cancelled
    child counts: [CancelledError]) settles the pending future with it.
    Otherwise the future is settled when this was the last callback
    ([nfinished == nfuts]): with [CancelledError] if a cancellation was
    requested on it, with the results if not. *)
Definition done_callback (r : result unit) (rest : list (nat * result unit))
    (st : state) : state :=
  let settled :=
    match outer st with
    | Some o => Some o
    | None =>
        match r with
        | Raised e => Some (Raised e)
        | Returned _ =>
            if is_empty rest && forallb is_finished (children st)
            then Some (if cancel_requested st then Raised CancelledError else Returned ())
            else None
        end
    end in
  {| queue := queue st; loc := loc st; must_cancel := must_cancel st;
     tasks := tasks st; calls := calls st; base := base st;
     outer := settled;
     cancel_requested := cancel_requested st;
     completions := completions st;
     callbacks := rest |}.

(** The event loop runs the oldest scheduled callback, if there is one. *)
Definition run_callback (st : state) : state :=
  match callbacks st with
  | [] => st
  | (_, r) :: rest => done_callback r rest st
  end.

Definition set_task (i : nat) (t : task) (st : state) : state :=
  {| queue := queue st; loc := loc st; must_cancel := must_cancel st;
     tasks := <[i:=t]> (tasks st); calls := calls st; base := base st;
     outer := outer st; cancel_requested := cancel_requested st;
     completions := completions st; callbacks := callbacks st |}.

(** The event loop resumes handler task [i]. *)
Definition resume_child (i : nat) (st : state) : state :=
  match tasks st !! i with
  | None | Some (Finished _) => st
  | Some t =>
      let t' := resume_task t in
      let st' := set_task i t' st in
      match t' with
      | Finished r => if decide (base st ≤ i)%nat then completed i r st' else st'
      | _ => st'
      end
  end.

(** [Task.cancel()] on a task that is not waiting on a pending future:
    the task marks itself, and [CancelledError] is thrown into its
    coroutine at the next resumption ([_must_cancel]). *)
Definition mark_cancel (st : state) : state :=
  {| queue := queue st; loc := loc st; must_cancel := true;
     tasks := tasks st; calls := calls st; base := base st; outer := outer st;
     cancel_requested := cancel_requested st; completions := completions st;
     callbacks := callbacks st |}.

(** [_GatheringFuture.cancel()] on a pending gather future: the request is
    forwarded to every child, and the future itself stays pending. *)
Definition cancel_children (st : state) : state :=
  {| queue := queue st; loc := loc st; must_cancel := must_cancel st;
     tasks := take (base st) (tasks st) ++ (cancel_task <$> children st);
     calls := calls st; base := base st; outer := outer st;
     cancel_requested := true; completions := completions st;
     callbacks := callbacks st |}.

(** [Task.cancel()] on the loop's task.  At a sleep the cancellation is
    thrown at the next resumption.  At the join, a pending gather future
    forwards the request to its children and reports whether one of them
    could still be cancelled; if none could (all have ended, their
    callbacks have not all run), or if the future is settled already, the
    loop's task marks itself. *)
Definition cancel (st : state) : state :=
  match loc st with
  | Stopped _ => st
  | AtFetchSleep | AtBackoffSleep => mark_cancel st
  | AtGather =>
      match outer st with
      | Some _ => mark_cancel st
      | None =>
          if forallb is_finished (children st) then mark_cancel st
          else cancel_children st
      end
  end.

Section loop.
Variable handler : MessageHandler.
Variable batch_size : Z.

(** Lines 68-69: [tasks = [handler(message) for message in batch]] and
    [await asyncio.gather] of them, up to the suspension. *)
Definition dispatch (batch : list string) (st : state) : state :=
  gather (map handler batch)
    {| queue := queue st; loc := loc st; must_cancel := must_cancel st;
       tasks := tasks st; calls := calls st ++ batch; base := base st;
       outer := outer st; cancel_requested := cancel_requested st;
       completions := completions st; callbacks := callbacks st |}.

(** An exception [e] raised at the current [await] of the loop. *)
Definition raise_in_loop (e : exn) (st : state) : state :=
  stop (except_clause e) st.

(** What [await asyncio.gather(...)] gives the loop when the loop is
    resumed at the join: nothing while the gather future is pending;
    [CancelledError] when a cancellation is pending on the loop's task,
    whatever the future holds; otherwise what the future holds. *)
Definition join_outcome (st : state) : option (result unit) :=
  match outer st with
  | None => None
  | Some r => Some (if must_cancel st then Raised CancelledError else r)
  end.

(** The event loop resumes the loop coroutine, which runs to its next
    suspension point or to its end. *)
Definition resume_main (st : state) : state :=
  let w := if must_cancel st then Cancelled else Completed in
  match loc st with
  | Stopped _ => st
  | AtFetchSleep =>
      match receive_batch w (queue st) batch_size with
      | (Raised e, _) => raise_in_loop e st
      | (Returned batch, q') =>
          if is_empty batch then goto AtBackoffSleep q' st
          else dispatch batch (goto AtFetchSleep q' st)
      end
  | AtBackoffSleep =>
      match w with
      | Cancelled => raise_in_loop CancelledError st
      | Completed => goto AtFetchSleep (queue st) st
      end
  | AtGather =>
      match join_outcome st with
      | None => st
      | Some (Raised e) => raise_in_loop e st
      | Some (Returned _) => goto AtFetchSleep (queue st) st
      end
  end.

Definition step (e : event) (st : state) : state :=
  match e with
  | ResumeMain => resume_main st
  | ResumeChild i => resume_child i st
  | RunCallback => run_callback st
  | Cancel => cancel st
  end.

Definition run (schedule : list event) (st : state) : state :=
  foldl (λ st e, step e st) st schedule.

(** The coroutine entered: it runs to the sleep of its first fetch. *)
Definition start (q : InMemoryQueue) : state :=
  {| queue := q; loc := AtFetchSleep; must_cancel := false; tasks := [];
     calls := []; base := 0%nat; outer := None; cancel_requested := false;
     completions := []; callbacks := [] |}.

(** [process_queue_forever(queue, handler, batch_size, _)] under a
    schedule of events: the state the loop is in after them. *)
Definition process_queue_forever (q : InMemoryQueue) (schedule : list event) : state :=
  run schedule (start q).
End loop.

(** ** Classes of handler coroutines and tasks *)

(** The coroutine returns when no cancellation is delivered to it. *)
Fixpoint succeeds (c : coro) : bool :=
  match c with
  | Return => true
  | Raise _ => false
  | Await k _ => succeeds k
  end.

(** The task ended with an error of the handler's own. *)
Definition handler_failed (t : task) : bool :=
  match t with
  | Finished (Raised (HandlerError _)) => true
  | _ => false
  end.

(** ** Schedules *)

(** Events of the handler tasks: a task takes a step, or a callback of
    the gather runs. *)
Definition is_handler_event (e : event) : bool :=
  match e with ResumeChild _ | RunCallback => true | _ => false end.

Definition is_cancel (e : event) : bool :=
  match e with Cancel => true | _ => false end.

(** How often a schedule resumes task [j]. *)
Fixpoint resumptions (j : nat) (schedule : list event) : nat :=
  match schedule with
  | [] => 0
  | ResumeChild i :: schedule' =>
      (if decide (i = j) then 1 else 0) + resumptions j schedule'
  | _ :: schedule' => resumptions j schedule'
  end.

(** Every one of [n] tasks is resumed once, in creation order. *)
Definition round (n : nat) : list event := ResumeChild <$> seq 0 n.

Fixpoint rounds (r n : nat) : list event :=
  match r with
  | O => []
  | S r' => round n ++ rounds r' n
  end.

(** A schedule that lets every task of [st] run to its end: as many
    rounds as the largest task can take steps. *)
Definition settle (st : state) : list event :=
  rounds (max_list (task_size <$> tasks st)) (length (tasks st)).

(** A schedule that runs every callback scheduled in [st]. *)
Definition drain (st : state) : list event :=
  replicate (length (callbacks st)) RunCallback.

(** A schedule that lets the handler tasks of [st] run to their ends and
    then runs every callback they scheduled. *)
Definition quiesce (handler : MessageHandler) (batch_size : Z) (st : state) : list event :=
  settle st ++ drain (run handler batch_size (settle st) st).

(** ** Invariants of the transition system *)

Abbreviation fin := (λ t : task, is_finished t = true).

(** What resuming task [i] does to a state: nothing when the task has
    ended or does not exist; otherwise the task takes one step and either
    suspends again or ends, and a child of the latest gather that ends
    schedules the gather's callback. *)
Inductive resumed (i : nat) (st : state) : state → Prop :=
  | resumed_idle :
      (∀ t, tasks st !! i = Some t → is_finished t = true) →
      resumed i st st
  | resumed_suspends t k h :
      tasks st !! i = Some t → is_finished t = false →
      resume_task t = Suspended k h false →
      resumed i st (set_task i (Suspended k h false) st)
  | resumed_orphan t r :
      tasks st !! i = Some t → is_finished t = false →
      resume_task t = Finished r → (i < base st)%nat →
      resumed i st (set_task i (Finished r) st)
  | resumed_child t r :
      tasks st !! i = Some t → is_finished t = false →
      resume_task t = Finished r → (base st ≤ i)%nat →
      resumed i st (completed i r (set_task i (Finished r) st)).

(** Every task older than the latest gather has ended; at a sleep every
    task has; a pending gather future has an unfinished child or a
    callback to run, and a gather future that holds a result has
    neither. *)
Definition well_formed (st : state) : Prop :=
  (base st ≤ length (tasks st))%nat ∧
  Forall fin (take (base st) (tasks st)) ∧
  match loc st with
  | AtFetchSleep | AtBackoffSleep => Forall fin (tasks st)
  | AtGather =>
      match outer st with
      | Some (Returned _) => Forall fin (tasks st)
      | Some (Raised _) => True
      | None => ¬ Forall fin (children st) ∨ callbacks st ≠ []
      end
  | Stopped _ => True
  end.

(** The completion log and the scheduled callbacks record terminal states
    of tasks. *)
Definition logged (st : state) : Prop :=
  ∀ i r, (i, r) ∈ completions st ++ callbacks st → tasks st !! i = Some (Finished r).

(** Without cancellation: the callbacks still scheduled are the end of
    the completion log, a failed gather future holds the first failure of
    the part of the log whose callbacks have run, and an error the loop
    ended with is the one its gather future holds. *)
Definition first_failure_reported (st : state) : Prop :=
  must_cancel st = false ∧ cancel_requested st = false ∧
  (∃ processed,
     completions st = processed ++ callbacks st ∧
     match outer st with
     | None => first_failure processed = None
     | Some (Raised e) => ∃ i, first_failure processed = Some (i, e)
     | Some (Returned _) => True
     end) ∧
  ∀ e, loc st = Stopped (Raised e) → outer st = Some (Raised e).

(** A cancellation of the loop is in effect: pending on the loop's task,
    or forwarded to the children of a gather future that no failure has
    settled; or the loop has returned. *)
Definition cancelling (st : state) : Prop :=
  match loc st with
  | Stopped r => r = Returned ()
  | AtFetchSleep | AtBackoffSleep => must_cancel st = true
  | AtGather =>
      must_cancel st = true ∨
      (cancel_requested st = true ∧ ∀ r, outer st = Some r → r = Raised CancelledError)
  end.

(** A cancellation delivered at a sleep is pending, or the loop has
    returned. *)
Definition cancelled_asleep (st : state) : Prop :=
  match loc st with
  | AtFetchSleep | AtBackoffSleep => must_cancel st = true
  | AtGather => False
  | Stopped r => r = Returned ()
  end.

(** A task of a succeeding handler that no cancellation has reached. *)
Definition succeeding_task (t : task) : bool :=
  match t with
  | NotStarted c f => negb f && succeeds c
  | Suspended k _ f => negb f && succeeds k
  | Finished (Returned _) => true
  | Finished (Raised _) => false
  end.

Definition all_succeeding (st : state) : Prop :=
  cancel_requested st = false ∧
  Forall (λ t, succeeding_task t = true) (children st) ∧
  Forall (λ c : nat * result unit, c.2 = Returned ()) (callbacks st) ∧
  match outer st with
  | None => ¬ Forall fin (children st) ∨ callbacks st ≠ []
  | Some r => r = Returned ()
  end.

(** ** Example handlers and queues *)

Definition abc : InMemoryQueue := {| messages := ["a"; "b"; "c"]%string |}.

(** [example_handler] of the source: one sleep, then a print. *)
Definition example_handler : MessageHandler :=
  λ _, Await Return (Raise CancelledError).

(** Fails on message ["a"] before any await, sleeps once on the others. *)
Definition fails_on_a : MessageHandler :=
  λ m, if String.eqb m "a" then Raise (HandlerError "boom")
       else Await Return (Raise CancelledError).

(** Sleeps once; answers a cancellation of that sleep with an error of
    its own ([except asyncio.CancelledError: raise KeyError(...)]). *)
Definition raises_on_cancel : MessageHandler :=
  λ _, Await Return (Raise (HandlerError "KeyError")).

(** ** Further classes of handlers, and the demo of the source *)

(** No path of the coroutine raises anything but [CancelledError]. *)
Fixpoint error_free (c : coro) : bool :=
  match c with
  | Return | Raise CancelledError => true
  | Raise (HandlerError _) => false
  | Await k h => error_free k && error_free h
  end.

Definition not_handler_error (r : result unit) : bool :=
  match r with
  | Raised (HandlerError _) => false
  | _ => true
  end.

(** A task of an error-free handler. *)
Definition error_free_task (t : task) : bool :=
  match t with
  | NotStarted c _ => error_free c
  | Suspended k h _ => error_free k && error_free h
  | Finished r => not_handler_error r
  end.

(** The handler tasks that have not reached a terminal state. *)
Definition in_flight (st : state) : list task :=
  filter (λ t, is_finished t = false) (tasks st).

(** The loop runs and no cancellation has reached it; while it waits at
    the join, every handler task of the batch succeeds. *)
Definition healthy (st : state) : Prop :=
  must_cancel st = false ∧
  match loc st with
  | AtFetchSleep | AtBackoffSleep => True
  | AtGather => all_succeeding st
  | Stopped _ => False
  end.

(** A handler task ended by raising [e]. *)
Definition raised_by_handler (e : exn) (st : state) : Prop :=
  ∃ i, tasks st !! i = Some (Finished (Raised e)).

(** A handler error held by the gather future, or raised by the loop, is
    one a handler task ended with. *)
Definition traced (st : state) : Prop :=
  (∀ reason, outer st = Some (Raised (HandlerError reason)) →
     raised_by_handler (HandlerError reason) st) ∧
  (∀ e, loc st = Stopped (Raised e) →
     (∃ reason, e = HandlerError reason) ∧ raised_by_handler e st).

(** Handler task [i] was created by the [i]-th call of the handler, and
    [P m] holds of every task created for message [m]. *)
Definition tasks_of_calls (P : string → task → Prop) (st : state) : Prop :=
  Forall2 (λ t m, P m t) (tasks st) (calls st).

(** A task of a handler call that cannot fail cannot fail. *)
Definition sound_task (handler : MessageHandler) (m : string) (t : task) : Prop :=
  error_free (handler m) = true → error_free_task t = true.

(** No cancellation has reached the loop's task, and the gather future
    is in step with the loop: at a sleep the latest gather has succeeded
    (or there has been none), and a loop that has ended ended with what
    its gather future holds. *)
Definition uncancelled (st : state) : Prop :=
  must_cancel st = false ∧
  match loc st with
  | AtFetchSleep | AtBackoffSleep =>
      outer st = Some (Returned ()) ∨
      (outer st = None ∧ tasks st = [] ∧ callbacks st = [])
  | AtGather => True
  | Stopped r => ∃ e, outer st = Some (Raised e) ∧ r = except_clause e
  end.

(** The dispatch has failed with the handler error [reason]: the gather
    future holds it, and the loop waits at the join or has ended. *)
Definition failed_join (reason : string) (st : state) : Prop :=
  outer st = Some (Raised (HandlerError reason)) ∧
  (loc st = AtGather ∨ loc st = Stopped (Raised (HandlerError reason))
   ∨ loc st = Stopped (Returned ())).

(** The failure of the dispatch is on its way to the caller, or has
    reached it. *)
Definition error_due (reason : string) (st : state) : Prop :=
  must_cancel st = false ∧ outer st = Some (Raised (HandlerError reason)) ∧
  (loc st = AtGather ∨ loc st = Stopped (Raised (HandlerError reason))).

(** A cancellation is pending on a loop that waits on a settled gather
    future, or the loop has returned. *)
Definition cancel_due (st : state) : Prop :=
  (loc st = AtGather ∧ must_cancel st = true ∧ ∃ o, outer st = Some o)
  ∨ loc st = Stopped (Returned ()).

(** The loop is at a fetch with nothing left over from earlier batches:
    every handler task has returned and every callback has run. *)
Definition between_batches (st : state) : Prop :=
  loc st = AtFetchSleep ∧ must_cancel st = false ∧ callbacks st = [] ∧
  Forall (λ t, t = Finished (Returned ())) (tasks st).

Section serving.
Variable handler : MessageHandler.
Variable batch_size : Z.

(** One turn of the loop with nothing in its way: the loop is resumed at
    the sleep of its fetch, the handler tasks of the batch it dispatches
    run to their ends, their callbacks run, and the loop is resumed
    again (at the join, or at the back-off sleep when it fetched
    nothing). *)
Definition turn (st : state) : list event :=
  ResumeMain :: quiesce handler batch_size (resume_main handler batch_size st)
    ++ [ResumeMain].

Fixpoint turns (n : nat) (st : state) : list event :=
  match n with
  | O => []
  | S n' => turn st ++ turns n' (run handler batch_size (turn st) st)
  end.
End serving.

(** The queue [main] builds: [f"msg-{i}" for i in range(10)]. *)
Definition main_queue : InMemoryQueue :=
  {| messages := ["msg-0"; "msg-1"; "msg-2"; "msg-3"; "msg-4";
                  "msg-5"; "msg-6"; "msg-7"; "msg-8"; "msg-9"]%string |}.

(** [main] (lines 88-93): the loop is started on [main_queue] with
    [example_handler] and the default [batch_size = 5]; [during_sleep] is
    what the event loop does while [main] sleeps its five seconds; then
    [task.cancel()]; [while_awaited] is what the event loop does while
    [main] awaits the task.  The state of the loop's task after that. *)
Definition main (during_sleep while_awaited : list event) : state :=
  run example_handler 5 (Cancel :: while_awaited)
    (process_queue_forever example_handler 5 main_queue during_sleep).

(** * Properties of [InMemoryQueue.receive_batch] *)

Section queue_facts.
Implicit Types (q : InMemoryQueue) (n : Z).

Lemma slice_stop_nonneg {A} (l : list A) n :
  0 ≤ n → slice_stop l n = Nat.min (Z.to_nat n) (length l).
Proof. intros Hn. unfold slice_stop. destruct (Z.ltb_spec n 0); lia. Qed.

Lemma slice_split {A} (l : list A) n : slice_to l n ++ del_slice_to l n = l.
Proof. apply take_drop. Qed.

Lemma take_batch_conserves q n :
  (take_batch q n).1 ++ messages (take_batch q n).2 = messages q.
Proof.
  unfold take_batch. destruct (_ || _); simpl; [done | apply slice_split].
Qed.

Lemma take_batch_front q n :
  0 ≤ n →
  take_batch q n =
    (take (Nat.min (Z.to_nat n) (length (messages q))) (messages q),
     {| messages := drop (Nat.min (Z.to_nat n) (length (messages q))) (messages q) |}).
Proof.
  intros Hn. destruct q as [l]. unfold take_batch; simpl.
  destruct (Z.leb_spec n 0) as [H0|Hpos]; simpl.
  - replace (Z.to_nat n) with 0%nat by lia. done.
  - destruct l as [|m l]; simpl; [by rewrite Nat.min_0_r|].
    unfold slice_to, del_slice_to. by rewrite slice_stop_nonneg by lia.
Qed.

Lemma take_batch_nonpos q n : n ≤ 0 → take_batch q n = ([], q).
Proof. intros Hn. unfold take_batch. by destruct (Z.leb_spec n 0); [|lia]. Qed.

Lemma delivered_before_S tr i b qi :
  tr !! i = Some (b, qi) →
  delivered_before tr (S i) = (delivered_before tr i + length b)%nat.
Proof.
  intros Hi. unfold delivered_before.
  assert (tr.*1 !! i = Some b) as Hb by (by rewrite list_lookup_fmap, Hi).
  rewrite (take_S_r _ _ _ Hb), concat_app, length_app. simpl.
  rewrite app_nil_r. done.
Qed.

Lemma delivered_before_mono tr i j :
  (i ≤ j)%nat → (delivered_before tr i ≤ delivered_before tr j)%nat.
Proof.
  intros Hij. unfold delivered_before.
  replace j with (i + (j - i))%nat by lia.
  rewrite <- take_take_drop, concat_app, length_app. lia.
Qed.

Lemma delivered_before_cons b q0 tr i :
  delivered_before ((b, q0) :: tr) (S i) = (length b + delivered_before tr i)%nat.
Proof. unfold delivered_before. simpl. by rewrite length_app. Qed.

(** The batch of call [i] followed by what that call leaves pending is
    the original sequence from the position where call [i] starts. *)
Lemma receive_batches_segment q sizes i b qi :
  receive_batches q sizes !! i = Some (b, qi) →
  b ++ messages qi = drop (delivered_before (receive_batches q sizes) i) (messages q).
Proof.
  revert q i. induction sizes as [|n sizes IH]; intros q i Hi; [done|].
  simpl in *. pose proof (take_batch_conserves q n) as Hc.
  destruct (take_batch q n) as [b0 q0]; simpl in *.
  destruct i as [|i]; simpl in *.
  - injection Hi as -> ->. done.
  - rewrite delivered_before_cons, (IH _ _ Hi), <- Hc.
    by rewrite <- drop_drop, drop_app_length.
Qed.

(** C1: for a non-negative [batch_size] and a pending sequence of length
    [L], an uncancelled [receive_batch] returns the first
    [min batch_size L] pending messages in their order, and leaves the
    other [L - min batch_size L] pending, in their order. *)
Theorem receive_batch_takes_front q n :
  0 ≤ n →
  let L := length (messages q) in
  let k := Nat.min (Z.to_nat n) L in
  receive_batch Completed q n =
    (Returned (take k (messages q)), {| messages := drop k (messages q) |})
  ∧ length (take k (messages q)) = k
  ∧ length (drop k (messages q)) = (L - k)%nat.
Proof.
  intros Hn L k. unfold receive_batch. rewrite take_batch_front by done.
  split; [done|]. rewrite length_take, length_drop. lia.
Qed.

Lemma receive_batch_takes_front_witness :
  receive_batch Completed abc 2 =
    (Returned ["a"; "b"]%string, {| messages := ["c"]%string |})
  ∧ length (take 2 (messages abc)) = 2%nat
  ∧ length (drop 2 (messages abc)) = 1%nat.
Proof. apply (receive_batch_takes_front abc 2). lia. Defined.

(** C5: for [batch_size ≤ 0], [receive_batch] returns the empty list and
    leaves the queue as it was, whatever the queue holds (and the queue
    is untouched when the call is cancelled instead). *)
Theorem receive_batch_nonpositive (w : wakeup) q n :
  n ≤ 0 →
  receive_batch Completed q n = (Returned [], q) ∧ (receive_batch w q n).2 = q.
Proof.
  intros Hn. unfold receive_batch. rewrite take_batch_nonpos by done.
  by destruct w.
Qed.

Lemma receive_batch_nonpositive_witness :
  receive_batch Completed abc (-3) = (Returned [], abc)
  ∧ (receive_batch Completed abc (-3)).2 = abc.
Proof. apply (receive_batch_nonpositive Completed abc (-3)). lia. Defined.

(** C6: in a sequence of [receive_batch] calls on one queue, the batch
    of call [i] is the segment of the original pending sequence that
    starts where the earlier calls stopped; what call [i] leaves pending
    is everything after that segment; every later call returns a segment
    that starts after it.  So no position of the pending sequence is
    handed out twice, and when the pending messages are pairwise
    distinct, a message returned by call [i] is neither pending after
    the call nor returned by a later one. *)
Theorem no_redelivery q sizes i b qi :
  receive_batches q sizes !! i = Some (b, qi) →
  let trace := receive_batches q sizes in
  let off := delivered_before trace i in
  b = take (length b) (drop off (messages q))
  ∧ messages qi = drop (off + length b) (messages q)
  ∧ (∀ j bj qj, (i < j)%nat → trace !! j = Some (bj, qj) →
       (off + length b ≤ delivered_before trace j)%nat
       ∧ bj = take (length bj) (drop (delivered_before trace j) (messages q)))
  ∧ (NoDup (messages q) → ∀ m, m ∈ b →
       (m ∉ messages qi)
       ∧ (∀ j bj qj, (i < j)%nat → trace !! j = Some (bj, qj) → m ∉ bj)).
Proof.
  intros Hi trace off. subst trace off.
  pose proof (receive_batches_segment _ _ _ _ _ Hi) as Hseg.
  assert (messages qi
          = drop (delivered_before (receive_batches q sizes) i + length b) (messages q))
    as Hrest by (by rewrite <- drop_drop, <- Hseg, drop_app_length).
  assert (∀ j bj qj, (i < j)%nat → receive_batches q sizes !! j = Some (bj, qj) →
            (delivered_before (receive_batches q sizes) i + length b
             ≤ delivered_before (receive_batches q sizes) j)%nat
            ∧ bj = take (length bj)
                     (drop (delivered_before (receive_batches q sizes) j) (messages q)))
    as Hlater.
  { intros j bj qj Hij Hj. split.
    - rewrite <- (delivered_before_S _ i b qi Hi).
      apply delivered_before_mono. lia.
    - pose proof (receive_batches_segment _ _ _ _ _ Hj) as Hsegj.
      by rewrite <- Hsegj, take_app_length. }
  split_and!; [by rewrite <- Hseg, take_app_length|done|done|].
  intros Hnd m Hm.
  assert (NoDup (b ++ messages qi)) as Hnd'.
  { rewrite Hseg. apply (sublist_NoDup _ (messages q)); [done|apply sublist_drop]. }
  apply NoDup_app in Hnd' as (_ & Hdisj & _). split; [by apply Hdisj|].
  intros j bj qj Hij Hj Hmj. apply (Hdisj m Hm).
  destruct (Hlater j bj qj Hij Hj) as [Hle Hbj]. rewrite Hrest.
  rewrite Hbj in Hmj. apply subseteq_take in Hmj.
  replace (delivered_before (receive_batches q sizes) j)
    with ((delivered_before (receive_batches q sizes) i + length b)
          + (delivered_before (receive_batches q sizes) j
             - (delivered_before (receive_batches q sizes) i + length b)))%nat
    in Hmj by lia.
  rewrite <- drop_drop in Hmj. by apply subseteq_drop in Hmj.
Qed.

Lemma no_redelivery_witness :
  ["c"]%string = take 1 (drop 2 (messages abc))
  ∧ @nil string = drop 3 (messages abc).
Proof.
  pose proof (no_redelivery abc [2; 0; 5] 2 ["c"]%string {| messages := [] |} eq_refl)
    as (H1 & H2 & _).
  split; [exact H1 | exact H2].
Defined.

(** C7: [receive_batch] never fails.  Run on values as they are at run
    time, where the comparison, the slice and the deletion of lines 37-42
    can each raise [TypeError], the call raises none of them for any
    integer [batch_size] and any list: uncancelled it returns a list and
    leaves a list, and the only exception that leaves the call is the
    [CancelledError] of a cancellation delivered at its sleep.  On a
    queue of strings it returns and leaves exactly what the typed
    [receive_batch] does. *)
Theorem receive_batch_never_fails n :
  (∀ q w,
     Py.receive_batch w (Py.of_messages (messages q)) (Py.VInt n) =
       match receive_batch w q n with
       | (Returned batch, q') => (inr (Py.of_messages batch), Py.of_messages (messages q'))
       | (Raised _, q') => (inl Py.CancelledError, Py.of_messages (messages q'))
       end)
  ∧ (∀ l, ∃ batch rest,
       Py.receive_batch Completed (Py.VList l) (Py.VInt n)
         = (inr (Py.VList batch), Py.VList rest)
       ∧ batch ++ rest = l)
  ∧ (∀ l w e,
       (Py.receive_batch w (Py.VList l) (Py.VInt n)).1 = inl e →
       w = Cancelled ∧ e = Py.CancelledError).
Proof.
  assert (∀ l, Py.body (Py.VList l) (Py.VInt n) =
               inr (if (n <=? 0) || is_empty l then (Py.VList [], Py.VList l)
                    else (Py.VList (slice_to l n), Py.VList (del_slice_to l n)))) as Hbody.
  { intros l. unfold Py.body, Py.le_int, Py.truthy. simpl. rewrite negb_involutive.
    by destruct (_ || _). }
  split_and!.
  - intros [l] [|]; [|done]. unfold Py.receive_batch, Py.of_messages. rewrite Hbody.
    unfold receive_batch, take_batch. simpl.
    replace (is_empty (Py.VStr <$> l)) with (is_empty l) by by destruct l.
    destruct (_ || _); simpl; [done|].
    unfold slice_to, del_slice_to, slice_stop.
    by rewrite length_fmap, fmap_take, fmap_drop.
  - intros l. unfold Py.receive_batch. rewrite Hbody.
    destruct (_ || _); [by exists [], l|].
    exists (slice_to l n), (del_slice_to l n). split; [done|apply slice_split].
  - intros l [|] e; unfold Py.receive_batch.
    + rewrite Hbody. by destruct (_ || _).
    + simpl. by intros [= <-].
Qed.

(** Outside the annotations the body does raise: a [batch_size] that is
    [None] fails at the comparison, a string as queue fails at the
    deletion, after the slice was read, and is left as it was; [None] as
    queue is falsy and gives the empty batch. *)
Example receive_batch_ill_typed :
  Py.receive_batch Completed (Py.of_messages ["a"; "b"; "c"]%string) Py.VNone
    = (inl Py.TypeError, Py.of_messages ["a"; "b"; "c"]%string)
  ∧ Py.receive_batch Completed (Py.VStr "abc") (Py.VInt 2)
    = (inl Py.TypeError, Py.VStr "abc")
  ∧ Py.getslice (Py.VStr "abc") (Py.VInt 2) = inr (Py.VStr "ab")
  ∧ Py.receive_batch Completed (Py.VInt 5) (Py.VInt 2) = (inl Py.TypeError, Py.VInt 5)
  ∧ Py.receive_batch Completed Py.VNone (Py.VInt 2) = (inr (Py.VList []), Py.VNone)
  ∧ Py.receive_batch Completed (Py.of_messages ["a"; "b"; "c"]%string) (Py.VBool true)
    = (inr (Py.of_messages ["a"]%string), Py.of_messages ["b"; "c"]%string).
Proof. by repeat split. Qed.

(** C10: one [receive_batch] call conserves the messages: the batch it
    returns followed by what it leaves pending is what was pending
    before; a cancelled call leaves the queue as it was. *)
Theorem receive_batch_conserves (w : wakeup) q n :
  match receive_batch w q n with
  | (Returned batch, q') => batch ++ messages q' = messages q
  | (Raised _, q') => q' = q
  end.
Proof.
  unfold receive_batch. destruct w; [|done].
  pose proof (take_batch_conserves q n). by destruct (take_batch q n).
Qed.

(** The scenario of seven pending messages fetched five at a time. *)
Example seven_messages :
  receive_batches {| messages := ["a"; "b"; "c"; "d"; "e"; "f"; "g"]%string |} [5; 5; 5]
  = [(["a"; "b"; "c"; "d"; "e"]%string, {| messages := ["f"; "g"]%string |});
     (["f"; "g"]%string, {| messages := [] |});
     ([], {| messages := [] |})].
Proof. reflexivity. Qed.
End queue_facts.

(** * Properties of the polling loop *)

(** ** Tasks and coroutines *)

Lemma forallb_finished l : forallb is_finished l = true ↔ Forall fin l.
Proof.
  induction l as [|t l IH]; simpl; [done|].
  rewrite andb_true_iff, Forall_cons, IH. done.
Qed.

Lemma finished_cancel_task t : is_finished (cancel_task t) = is_finished t.
Proof. by destruct t. Qed.

Lemma cancel_task_finished t : is_finished t = true → cancel_task t = t.
Proof. by destruct t. Qed.

Lemma Forall_finished_cancel l : Forall fin (cancel_task <$> l) ↔ Forall fin l.
Proof.
  rewrite Forall_fmap. apply Forall_proper; [|done].
  intros t. simpl. by rewrite finished_cancel_task.
Qed.

Lemma Forall_finished_split n l :
  Forall fin (take n l) → Forall fin (drop n l) → Forall fin l.
Proof. intros H1 H2. rewrite <- (take_drop n l). by apply Forall_app. Qed.

Lemma unfinished_lookup l i t :
  Forall fin l → l !! i = Some t → is_finished t = false → False.
Proof.
  intros Hl Hi Hf. rewrite Forall_lookup in Hl. specialize (Hl _ _ Hi).
  simpl in Hl. congruence.
Qed.

Lemma unfinished_drop l n i t :
  (n ≤ i)%nat → l !! i = Some t → is_finished t = false → ¬ Forall fin (drop n l).
Proof.
  intros Hni Hi Hf Hall. eapply (unfinished_lookup _ (i - n)); [apply Hall| |apply Hf].
  rewrite lookup_drop. by replace (n + (i - n))%nat with i by lia.
Qed.

Lemma handler_failed_finished t : handler_failed t = true → is_finished t = true.
Proof. by destruct t. Qed.

Lemma run_coro_cases c :
  (∃ r, run_coro c = Finished r) ∨ (∃ k h, run_coro c = Suspended k h false).
Proof. destruct c; simpl; eauto. Qed.

Lemma resume_task_cases t :
  (∃ r, resume_task t = Finished r) ∨ (∃ k h, resume_task t = Suspended k h false).
Proof.
  destruct t as [c [] | k h [] | r]; simpl; eauto using run_coro_cases.
Qed.

Lemma task_size_run_coro c : (task_size (run_coro c) ≤ coro_size c)%nat.
Proof. destruct c; simpl; lia. Qed.

Lemma task_size_resume t : (task_size (resume_task t) ≤ pred (task_size t))%nat.
Proof.
  destruct t as [c []|k h []|r]; simpl; try lia.
  - apply task_size_run_coro.
  - pose proof (task_size_run_coro h). lia.
  - pose proof (task_size_run_coro k). lia.
Qed.

(** A task resumed as often as its size has ended. *)
Lemma iter_resume_finished n t :
  (task_size t ≤ n)%nat → is_finished (Nat.iter n resume_task t) = true.
Proof.
  revert t. induction n as [|n IH]; intros t Hn.
  - destruct t; simpl in *; [lia..|done].
  - rewrite Nat.iter_succ_r. apply IH. pose proof (task_size_resume t). lia.
Qed.

Lemma run_coro_succeeding c : succeeds c = true → succeeding_task (run_coro c) = true.
Proof. by destruct c. Qed.

Lemma resume_task_succeeding t :
  succeeding_task t = true → succeeding_task (resume_task t) = true.
Proof.
  destruct t as [c []|k h []|r]; simpl; try done; apply run_coro_succeeding.
Qed.

(** ** The completion log *)

Lemma first_failure_app log log' :
  first_failure (log ++ log') =
    match first_failure log with Some f => Some f | None => first_failure log' end.
Proof. induction log as [|[i [[]|e]] log IH]; simpl; done. Qed.

Lemma first_failure_elem log i e :
  first_failure log = Some (i, e) → (i, Raised e) ∈ log.
Proof.
  induction log as [|[j [[]|e']] log IH]; simpl; intros H; [done| |].
  - apply elem_of_cons. right. auto.
  - injection H as -> ->. apply elem_of_cons. by left.
Qed.

(** ** Resuming a handler task *)

Lemma resume_child_resumed i st : resumed i st (resume_child i st).
Proof.
  unfold resume_child. destruct (tasks st !! i) as [t|] eqn:Hi.
  2: { apply resumed_idle. intros t. by rewrite Hi. }
  destruct (is_finished t) eqn:Hf.
  { destruct t; try discriminate. apply resumed_idle. intros t'. rewrite Hi. by intros [= <-]. }
  destruct (resume_task_cases t) as [[r Hr]|(k & h & Hr)].
  - replace (match t with Finished _ => st | _ => _ end)
      with (if decide (base st ≤ i)%nat then completed i r (set_task i (Finished r) st)
            else set_task i (Finished r) st)
      by (destruct t; try done; by rewrite Hr).
    case_decide; [eapply resumed_child | eapply resumed_orphan]; eauto; lia.
  - replace (match t with Finished _ => st | _ => _ end)
      with (set_task i (Suspended k h false) st)
      by (destruct t; try done; by rewrite Hr).
    eapply resumed_suspends; eauto.
Qed.

Lemma tasks_resume_child i st j :
  tasks (resume_child i st) !! j =
    if decide (i = j) then resume_task <$> tasks st !! j else tasks st !! j.
Proof.
  destruct (resume_child_resumed i st) as [Hidle|t k h Hi Hf Hr|t r Hi Hf Hr Hlt|t r Hi Hf Hr Hle].
  - case_decide as Hij; [subst j|done].
    destruct (tasks st !! i) as [t|]; [|done].
    specialize (Hidle t eq_refl). by destruct t.
  - simpl. case_decide as Hij; [subst j|by rewrite list_lookup_insert_ne].
    rewrite list_lookup_insert_eq by (by eapply lookup_lt_Some). by rewrite Hi, <- Hr.
  - simpl. case_decide as Hij; [subst j|by rewrite list_lookup_insert_ne].
    rewrite list_lookup_insert_eq by (by eapply lookup_lt_Some). by rewrite Hi, <- Hr.
  - simpl. case_decide as Hij; [subst j|by rewrite list_lookup_insert_ne].
    rewrite list_lookup_insert_eq by (by eapply lookup_lt_Some). by rewrite Hi, <- Hr.
Qed.

Lemma calls_resume_child i st : calls (resume_child i st) = calls st.
Proof. by destruct (resume_child_resumed i st). Qed.

Lemma base_resume_child i st : base (resume_child i st) = base st.
Proof. by destruct (resume_child_resumed i st). Qed.

Lemma loc_resume_child i st : loc (resume_child i st) = loc st.
Proof. by destruct (resume_child_resumed i st). Qed.

Lemma must_cancel_resume_child i st : must_cancel (resume_child i st) = must_cancel st.
Proof. by destruct (resume_child_resumed i st). Qed.

Lemma outer_resume_child i st : outer (resume_child i st) = outer st.
Proof. by destruct (resume_child_resumed i st). Qed.

Lemma cancel_requested_resume_child i st :
  cancel_requested (resume_child i st) = cancel_requested st.
Proof. by destruct (resume_child_resumed i st). Qed.

Lemma length_tasks_resume_child i st :
  length (tasks (resume_child i st)) = length (tasks st).
Proof. destruct (resume_child_resumed i st); simpl; by rewrite ?length_insert. Qed.

Lemma children_set_task_ge i x st :
  (base st ≤ i)%nat → children (set_task i x st) = <[(i - base st)%nat:=x]> (children st).
Proof. intros. by apply drop_insert_ge. Qed.

Lemma children_set_task_lt i x st :
  (i < base st)%nat → children (set_task i x st) = children st.
Proof. intros. by apply drop_insert_lt. Qed.

Lemma children_completed i r st : children (completed i r st) = children st.
Proof. done. Qed.

Lemma children_lookup st i :
  (base st ≤ i)%nat → children st !! (i - base st)%nat = tasks st !! i.
Proof. intros. unfold children. rewrite lookup_drop. f_equal. lia. Qed.

Lemma children_cancelled st :
  (base st ≤ length (tasks st))%nat →
  children (cancel_children st) = cancel_task <$> children st.
Proof.
  intros Hb. unfold children at 1; simpl.
  rewrite drop_app_length'; [done|]. rewrite length_take. lia.
Qed.

Lemma length_tasks_cancelled st :
  (base st ≤ length (tasks st))%nat →
  length (tasks (cancel_children st)) = length (tasks st).
Proof.
  intros Hb. simpl. rewrite length_app, length_take, length_fmap. unfold children.
  rewrite length_drop. lia.
Qed.

(** ** Running a callback of the gather *)

Lemma tasks_run_callback st : tasks (run_callback st) = tasks st.
Proof. unfold run_callback. by destruct (callbacks st) as [|[i r] rest]. Qed.

Lemma calls_run_callback st : calls (run_callback st) = calls st.
Proof. unfold run_callback. by destruct (callbacks st) as [|[i r] rest]. Qed.

Lemma base_run_callback st : base (run_callback st) = base st.
Proof. unfold run_callback. by destruct (callbacks st) as [|[i r] rest]. Qed.

Lemma loc_run_callback st : loc (run_callback st) = loc st.
Proof. unfold run_callback. by destruct (callbacks st) as [|[i r] rest]. Qed.

Lemma must_cancel_run_callback st : must_cancel (run_callback st) = must_cancel st.
Proof. unfold run_callback. by destruct (callbacks st) as [|[i r] rest]. Qed.

Lemma children_run_callback_done r rest st :
  children (done_callback r rest st) = children st.
Proof. done. Qed.

Lemma callbacks_run_callback st : callbacks (run_callback st) = tail (callbacks st).
Proof.
  unfold run_callback. destruct (callbacks st) as [|[i r] rest] eqn:Hcb; [|done].
  by rewrite Hcb.
Qed.

(** ** Schedules *)

Lemma resumptions_app s1 s2 j :
  resumptions j (s1 ++ s2) = (resumptions j s1 + resumptions j s2)%nat.
Proof.
  induction s1 as [|[|i| |] s1 IH]; simpl; [done|done| |done|done]. rewrite IH. lia.
Qed.

Lemma resumptions_round n j :
  resumptions j (round n) = if decide (j < n)%nat then 1%nat else 0%nat.
Proof.
  unfold round. induction n as [|n IH]; [done|].
  rewrite seq_S, fmap_app, resumptions_app, IH. simpl.
  repeat case_decide; simplify_eq; lia.
Qed.

Lemma resumptions_rounds r n j : (j < n)%nat → resumptions j (rounds r n) = r.
Proof.
  intros Hj. induction r as [|r IH]; [done|]. simpl.
  rewrite resumptions_app, resumptions_round, IH. case_decide; lia.
Qed.

Lemma handler_events_round n : forallb is_handler_event (round n) = true.
Proof. unfold round. induction (seq 0 n); simpl; done. Qed.

Lemma handler_events_rounds r n : forallb is_handler_event (rounds r n) = true.
Proof.
  induction r as [|r IH]; [done|]. simpl. rewrite forallb_app, handler_events_round. done.
Qed.

Lemma handler_events_drain st : forallb is_handler_event (drain st) = true.
Proof. unfold drain. induction (length (callbacks st)); simpl; done. Qed.

Lemma queue_resume_child i st : queue (resume_child i st) = queue st.
Proof. by destruct (resume_child_resumed i st). Qed.

Lemma queue_run_callback st : queue (run_callback st) = queue st.
Proof. unfold run_callback. by destruct (callbacks st) as [|[i r] rest]. Qed.

Lemma cancel_children_bound st :
  forallb is_finished (children st) = false → (base st < length (tasks st))%nat.
Proof.
  intros Hall. destruct (decide (base st < length (tasks st))%nat); [done|].
  unfold children in Hall. rewrite drop_ge in Hall by lia. done.
Qed.

Lemma queue_cancel st : queue (cancel st) = queue st.
Proof.
  unfold cancel. destruct (loc st); try done.
  destruct (outer st); [done|]. by destruct (forallb _ _).
Qed.

Lemma calls_cancel st : calls (cancel st) = calls st.
Proof.
  unfold cancel. destruct (loc st); try done.
  destruct (outer st); [done|]. by destruct (forallb _ _).
Qed.

Lemma loc_cancel st : loc (cancel st) = loc st.
Proof.
  unfold cancel. destruct (loc st) eqn:Hl; try by rewrite ?Hl.
  destruct (outer st); [by simpl|]. by destruct (forallb _ _).
Qed.

Lemma base_cancel st : base (cancel st) = base st.
Proof.
  unfold cancel. destruct (loc st); try done.
  destruct (outer st); [done|]. by destruct (forallb _ _).
Qed.

Lemma length_tasks_cancel st : length (tasks (cancel st)) = length (tasks st).
Proof.
  unfold cancel. destruct (loc st); try done.
  destruct (outer st); [done|]. destruct (forallb _ _) eqn:Hall; [done|].
  apply length_tasks_cancelled. apply cancel_children_bound in Hall. lia.
Qed.

Lemma children_cancel st :
  length (children (cancel st)) = length (children st).
Proof.
  unfold children. by rewrite !length_drop, length_tasks_cancel, base_cancel.
Qed.

Lemma outer_cancel st : outer (cancel st) = outer st.
Proof. unfold cancel. by repeat case_match. Qed.

Section loop_facts.
Variable handler : MessageHandler.
Variable batch_size : Z.
Local Abbreviation run := (run handler batch_size).
Local Abbreviation step := (step handler batch_size).
Local Abbreviation resume_main := (resume_main handler batch_size).
Local Abbreviation process_queue_forever := (process_queue_forever handler batch_size).
Local Abbreviation quiesce := (quiesce handler batch_size).

Lemma run_app s1 s2 st : run (s1 ++ s2) st = run s2 (run s1 st).
Proof. apply foldl_app. Qed.

Lemma run_snoc s e st : run (s ++ [e]) st = step e (run s st).
Proof. by rewrite run_app. Qed.

(** Induction on the states a schedule goes through. *)
Lemma run_invariant (P : state → Prop) st :
  P st → (∀ e st', P st' → P (step e st')) → ∀ s, P (run s st).
Proof.
  intros H0 Hstep s. revert st H0.
  induction s as [|e s IH]; intros st H0; simpl; [done|]. apply IH, Hstep, H0.
Qed.

Lemma run_invariant_on (allowed : event → bool) (P : state → Prop) st :
  P st → (∀ e st', allowed e = true → P st' → P (step e st')) →
  ∀ s, forallb allowed s = true → P (run s st).
Proof.
  intros H0 Hstep s. revert st H0.
  induction s as [|e s IH]; intros st H0 Hs; simpl in *; [done|].
  apply andb_prop in Hs as [He Hs]. by apply IH; [apply Hstep|].
Qed.

(** *** Well-formedness *)

Lemma well_formed_start q : well_formed (start q).
Proof. unfold well_formed; simpl. split_and!; [lia|done|done]. Qed.

Lemma well_formed_gather coros st :
  Forall fin (tasks st) → well_formed (gather coros st).
Proof.
  intros Hall. unfold well_formed; simpl. split_and!.
  - rewrite length_app. lia.
  - by rewrite take_app_length.
  - unfold children; simpl. rewrite drop_app_length.
    destruct coros as [|c coros]; simpl.
    + by rewrite app_nil_r.
    + left. intros Hf. apply Forall_cons_1 in Hf as [Hf _]. discriminate.
Qed.

Lemma well_formed_resume_main st : well_formed st → well_formed (resume_main st).
Proof.
  intros Hwf. pose proof Hwf as (Hb & Hold & Hloc).
  unfold resume_main, join_outcome, receive_batch, raise_in_loop.
  destruct (loc st) eqn:Hl; [| | |done].
  - destruct (must_cancel st); [by repeat split|].
    destruct (take_batch _ _) as [batch q'].
    destruct (is_empty batch); [by repeat split|].
    by apply well_formed_gather.
  - destruct (must_cancel st); by repeat split.
  - destruct (outer st) as [r|] eqn:Ho; [|done].
    destruct (must_cancel st); [by repeat split|].
    destruct r; by repeat split.
Qed.

Lemma well_formed_cancel st : well_formed st → well_formed (cancel st).
Proof.
  intros Hwf. pose proof Hwf as (Hb & Hold & Hloc). unfold cancel.
  destruct (loc st) eqn:Hl; [unfold well_formed; simpl; by rewrite Hl..| |done].
  destruct (outer st) as [r|] eqn:Ho; [unfold well_formed; simpl; by rewrite Hl, Ho|].
  destruct (forallb is_finished (children st)) eqn:Hall.
  { unfold well_formed; simpl. by rewrite Hl, Ho. }
  unfold well_formed. rewrite children_cancelled, length_tasks_cancelled by done.
  simpl. rewrite ?Hl, ?Ho. split_and!; [done| |].
  - rewrite take_app_length'; [done|]. rewrite length_take. lia.
  - left. rewrite Forall_finished_cancel. intros Hall'.
    apply forallb_finished in Hall'. congruence.
Qed.

Lemma well_formed_resume_child i st : well_formed st → well_formed (resume_child i st).
Proof.
  intros (Hb & Hold & Hloc).
  destruct (resume_child_resumed i st) as [Hidle|t k h Hi Hf Hr|t r Hi Hf Hr Hlt|t r Hi Hf Hr Hle].
  - done.
  - (* the task suspends again *)
    destruct (decide (i < base st)%nat) as [Hlt|Hge].
    { exfalso. eapply unfinished_lookup; [apply Hold| |apply Hf].
      by rewrite lookup_take_lt. }
    unfold well_formed, children; simpl. split_and!.
    + by rewrite length_insert.
    + rewrite take_insert_ge by lia. done.
    + assert (¬ Forall fin (tasks st)) as Hnot.
      { intros Hall. eapply unfinished_lookup; eauto. }
      assert (¬ Forall fin (drop (base st) (<[i:=Suspended k h false]> (tasks st)))) as Hnot'.
      { eapply (unfinished_drop _ _ i (Suspended k h false)); [lia| |done].
        apply list_lookup_insert_eq. by eapply lookup_lt_Some. }
      destruct (loc st); try done. destruct (outer st) as [[]|]; try done. by left.
  - (* an older task would end: there is none *)
    exfalso. eapply unfinished_lookup; [apply Hold| |apply Hf].
    by rewrite lookup_take_lt.
  - (* a child of the gather ends and schedules its callback *)
    unfold well_formed, children, completed; simpl. split_and!.
    + by rewrite length_insert.
    + rewrite take_insert_ge by lia. done.
    + assert (¬ Forall fin (tasks st)) as Hnot.
      { intros Hall. eapply unfinished_lookup; eauto. }
      destruct (loc st); try done.
      destruct (outer st) as [[]|]; try done.
      right. intros [_ ?]%app_eq_nil. done.
Qed.

Lemma well_formed_run_callback st : well_formed st → well_formed (run_callback st).
Proof.
  intros Hwf. pose proof Hwf as (Hb & Hold & Hloc). unfold run_callback.
  destruct (callbacks st) as [|[i r] rest] eqn:Hcb; [done|].
  unfold well_formed, children, done_callback; simpl. split_and!; [done..|].
  destruct (loc st); try done.
  destruct (outer st) as [[]|]; try done.
  destruct r as [[]|e]; [|done].
  destruct (is_empty rest) eqn:Hrest; simpl.
  - destruct (forallb _ _) eqn:Hall.
    + apply forallb_finished in Hall.
      destruct (cancel_requested st); [done|].
      by apply (Forall_finished_split (base st)).
    + left. intros Hall'. apply forallb_finished in Hall'.
      unfold children in Hall. congruence.
  - right. intros ->. done.
Qed.

Lemma well_formed_step e st : well_formed st → well_formed (step e st).
Proof.
  destruct e; simpl;
    auto using well_formed_resume_main, well_formed_resume_child,
      well_formed_run_callback, well_formed_cancel.
Qed.

Lemma well_formed_run_from st s : well_formed st → well_formed (run s st).
Proof. intros Hwf. apply run_invariant; auto using well_formed_step. Qed.

Lemma well_formed_run q s : well_formed (process_queue_forever q s).
Proof. apply well_formed_run_from, well_formed_start. Qed.

(** *** The completion log and the first failure *)

Lemma logged_resume_main st : logged st → logged (resume_main st).
Proof.
  intros Hlog. unfold resume_main, join_outcome, receive_batch, raise_in_loop.
  destruct (loc st); [| | |done].
  - destruct (must_cancel st); [done|].
    destruct (take_batch _ _) as [batch q'].
    destruct (is_empty batch); [done|].
    intros i r. simpl. by intros ?%elem_of_nil.
  - by destruct (must_cancel st).
  - destruct (outer st) as [r|]; [|done].
    destruct (must_cancel st); [done|]. by destruct r.
Qed.

Lemma logged_cancel st : logged st → logged (cancel st).
Proof.
  intros Hlog. unfold cancel.
  destruct (loc st); [done..| |done].
  destruct (outer st); [done|]. destruct (forallb _ _) eqn:Hall; [done|].
  assert (base st < length (tasks st))%nat as Hb.
  { destruct (decide (base st < length (tasks st))%nat); [done|].
    unfold children in Hall. rewrite drop_ge in Hall by lia. done. }
  intros i r Hir. unfold cancel_children in *. simpl in *. specialize (Hlog i r Hir).
  rewrite <- (take_drop (base st) (tasks st)) in Hlog.
  destruct (decide (i < base st)%nat).
  - rewrite lookup_app_l in Hlog |- * by (rewrite length_take; lia). done.
  - rewrite lookup_app_r in Hlog |- * by (rewrite length_take; lia).
    unfold children. rewrite list_lookup_fmap, Hlog. done.
Qed.

Lemma logged_resume_child i st : logged st → logged (resume_child i st).
Proof.
  intros Hlog.
  assert (∀ t x, tasks st !! i = Some t → is_finished t = false →
            logged (set_task i x st)) as Hset.
  { intros t x Hi Hf j r Hjr. simpl in *. specialize (Hlog j r Hjr).
    rewrite list_lookup_insert_ne; [done|]. intros ->.
    rewrite Hi in Hlog. injection Hlog as ->. done. }
  destruct (resume_child_resumed i st) as [Hidle|t k h Hi Hf Hr|t r Hi Hf Hr Hlt|t r Hi Hf Hr Hle];
    [done|by eapply Hset..|].
  intros j r'. simpl. rewrite !elem_of_app, !list_elem_of_singleton.
  intros [[Hjr|[= -> ->]]|[Hjr|[= -> ->]]].
  - apply (Hset t (Finished r) Hi Hf). simpl. apply elem_of_app. by left.
  - apply list_lookup_insert_eq. by eapply lookup_lt_Some.
  - apply (Hset t (Finished r) Hi Hf). simpl. apply elem_of_app. by right.
  - apply list_lookup_insert_eq. by eapply lookup_lt_Some.
Qed.

Lemma logged_run_callback st : logged st → logged (run_callback st).
Proof.
  intros Hlog. unfold run_callback.
  destruct (callbacks st) as [|[i r] rest] eqn:Hcb; [done|].
  intros j r'. simpl. intros Hj. apply Hlog. rewrite Hcb.
  apply elem_of_app in Hj as [Hj|Hj]; apply elem_of_app; [by left|right].
  apply elem_of_cons. by right.
Qed.

Lemma logged_step e st : logged st → logged (step e st).
Proof.
  destruct e; simpl;
    auto using logged_resume_main, logged_resume_child, logged_run_callback, logged_cancel.
Qed.

Lemma logged_run q s : logged (process_queue_forever q s).
Proof.
  unfold process_queue_forever. apply run_invariant; [|apply logged_step].
  intros i r. simpl. by intros ?%elem_of_nil.
Qed.

Lemma reported_resume_main st :
  first_failure_reported st → first_failure_reported (resume_main st).
Proof.
  intros Hrep. pose proof Hrep as (Hm & Hc & (processed & Hlog & Ho) & Hl).
  unfold resume_main, join_outcome, receive_batch, raise_in_loop. rewrite Hm.
  destruct (loc st) eqn:Hloc; [| | |done].
  - destruct (take_batch _ _) as [batch q'].
    destruct (is_empty batch).
    + repeat split; simpl; try done. by exists processed.
    + repeat split; simpl; try done. exists []. split; [done|]. by destruct (is_empty _).
  - repeat split; simpl; try done. by exists processed.
  - destruct (outer st) as [[[]|e]|] eqn:Hout; [| |done].
    + repeat split; simpl; try done. exists processed. by rewrite Hout.
    + repeat split; simpl; try done; [exists processed; by rewrite Hout|].
      destruct e; simpl; [done|]. intros ? [= <-]. done.
Qed.

Lemma reported_resume_child i st :
  first_failure_reported st → first_failure_reported (resume_child i st).
Proof.
  intros Hrep. pose proof Hrep as (Hm & Hc & (processed & Hlog & Ho) & Hl).
  destruct (resume_child_resumed i st) as [Hidle|t k h Hi Hf Hr|t r Hi Hf Hr Hlt|t r Hi Hf Hr Hle];
    [done|..]; unfold first_failure_reported; simpl; split_and!; try done;
    exists processed; split; try done.
  by rewrite Hlog, app_assoc.
Qed.

Lemma reported_run_callback st :
  first_failure_reported st → first_failure_reported (run_callback st).
Proof.
  intros Hrep. pose proof Hrep as (Hm & Hc & (processed & Hlog & Ho) & Hl).
  unfold run_callback. destruct (callbacks st) as [|[i r] rest] eqn:Hcb; [done|].
  unfold first_failure_reported, done_callback; simpl. split_and!; [done|done| |].
  - exists (processed ++ [(i, r)]). split.
    + by rewrite Hlog, <- app_assoc.
    + rewrite first_failure_app. destruct (outer st) as [[[]|e]|].
      * done.
      * destruct Ho as [j ->]. eauto.
      * rewrite Ho. destruct r as [[]|e]; simpl; [|eauto].
        rewrite Hc. by destruct (_ && _).
  - intros e He. specialize (Hl e He). by rewrite Hl.
Qed.

Lemma reported_step e st :
  is_cancel e = false → first_failure_reported st → first_failure_reported (step e st).
Proof.
  destruct e; simpl;
    [auto using reported_resume_main|auto using reported_resume_child
    |auto using reported_run_callback|done].
Qed.

(** *** Tasks that have ended *)

Lemma existsb_lookup {A} (f : A → bool) (l : list A) :
  existsb f l = true ↔ ∃ i x, l !! i = Some x ∧ f x = true.
Proof.
  rewrite existsb_exists. split.
  - intros (x & Hin & Hf). apply list_elem_of_In, list_elem_of_lookup in Hin as [i Hi]. eauto.
  - intros (i & x & Hi & Hf). exists x. split; [|done].
    apply list_elem_of_In. by eapply list_elem_of_lookup_2.
Qed.

(** A task that has ended stays as it is. *)
Lemma finished_persists_step e st i t :
  tasks st !! i = Some t → is_finished t = true → tasks (step e st) !! i = Some t.
Proof.
  intros Hi Hf. destruct e as [|j| |]; simpl.
  - unfold resume_main, join_outcome, receive_batch, raise_in_loop.
    destruct (loc st); [| | |done].
    + destruct (must_cancel st); [done|].
      destruct (take_batch _ _) as [batch q'].
      destruct (is_empty batch); [done|]. simpl. by apply lookup_app_l_Some.
    + by destruct (must_cancel st).
    + destruct (outer st) as [r|]; [|done].
      destruct (must_cancel st); [done|]. by destruct r.
  - rewrite tasks_resume_child, Hi. case_decide; [|done]. simpl. by destruct t.
  - by rewrite tasks_run_callback.
  - unfold cancel. destruct (loc st); [done..| |done].
    destruct (outer st); [done|]. destruct (forallb _ _) eqn:Hall; [done|].
    assert (base st < length (tasks st))%nat as Hb.
    { destruct (decide (base st < length (tasks st))%nat); [done|].
      unfold children in Hall. rewrite drop_ge in Hall by lia. done. }
    simpl. rewrite <- (take_drop (base st) (tasks st)) in Hi.
    destruct (decide (i < base st)%nat).
    + rewrite lookup_app_l in Hi |- * by (rewrite length_take; lia). done.
    + rewrite lookup_app_r in Hi |- * by (rewrite length_take; lia).
      unfold children. rewrite list_lookup_fmap, Hi. simpl.
      by rewrite cancel_task_finished.
Qed.

Lemma handler_failed_persists_step e st :
  existsb handler_failed (tasks st) = true →
  existsb handler_failed (tasks (step e st)) = true.
Proof.
  rewrite !existsb_lookup. intros (i & t & Hi & Hf). exists i, t. split; [|done].
  by apply finished_persists_step, handler_failed_finished.
Qed.

Lemma handler_failed_persists_run s st :
  existsb handler_failed (tasks st) = true →
  existsb handler_failed (tasks (run s st)) = true.
Proof. intros H. apply run_invariant; auto using handler_failed_persists_step. Qed.

(** *** A cancellation in effect *)

Lemma cancelling_resume_main st : cancelling st → cancelling (resume_main st).
Proof.
  unfold cancelling, resume_main, join_outcome, receive_batch, raise_in_loop.
  destruct (loc st) eqn:Hl; [| | |by rewrite Hl].
  - intros ->. by simpl.
  - intros ->. by simpl.
  - destruct (outer st) as [r|] eqn:Hout; [|by rewrite ?Hl, ?Hout].
    intros [->|[Hc Ho]]; [by simpl|].
    rewrite (Ho r eq_refl). by destruct (must_cancel st).
Qed.

Lemma cancelling_cancel st : cancelling st → cancelling (cancel st).
Proof.
  unfold cancelling, cancel.
  destruct (loc st) eqn:Hl; [by simpl; rewrite ?Hl..| |by rewrite ?Hl].
  destruct (outer st) as [r|] eqn:Hout.
  { simpl. rewrite ?Hl. intros _. by left. }
  destruct (forallb is_finished (children st)).
  { simpl. rewrite ?Hl. intros _. by left. }
  simpl. rewrite ?Hl, ?Hout. intros [?|[_ _]]; [by left|by right].
Qed.

Lemma cancelling_resume_child i st : cancelling st → cancelling (resume_child i st).
Proof.
  unfold cancelling.
  by rewrite loc_resume_child, must_cancel_resume_child, outer_resume_child,
    cancel_requested_resume_child.
Qed.

(** A callback that settles the gather future of a cancelled loop with a
    handler error belongs to a task that has ended with that error. *)
Lemma cancelling_run_callback st :
  cancelling st → logged st →
  existsb handler_failed (tasks st) = false → cancelling (run_callback st).
Proof.
  unfold cancelling, run_callback. intros Hcan Hlog Hok.
  destruct (callbacks st) as [|[i r] rest] eqn:Hcb; [done|]. simpl.
  destruct (loc st); [done..| |done].
  destruct Hcan as [?|[Hc Ho]]; [by left|right]. split; [done|].
  destruct (outer st) as [r'|]; [done|].
  destruct r as [[]|[|reason]].
  - rewrite Hc. by destruct (_ && _); [intros ? [= <-]|].
  - by intros ? [= <-].
  - exfalso. assert (existsb handler_failed (tasks st) = true) as Hbad; [|congruence].
    apply existsb_lookup. exists i, (Finished (Raised (HandlerError reason))).
    split; [|done]. apply Hlog. rewrite Hcb. apply elem_of_app. right. by left.
Qed.

Lemma cancelling_run s st :
  cancelling st → logged st →
  existsb handler_failed (tasks (run s st)) = false → cancelling (run s st).
Proof.
  revert st. induction s as [|e s IH]; intros st Hcan Hlog Hok; simpl in *; [done|].
  apply IH; [|by apply logged_step|done].
  assert (existsb handler_failed (tasks (step e st)) = false) as Hok'.
  { destruct (existsb handler_failed (tasks (step e st))) eqn:Hbad; [|done].
    by rewrite (handler_failed_persists_run s _ Hbad) in Hok. }
  destruct e; simpl in *;
    auto using cancelling_resume_main, cancelling_resume_child, cancelling_cancel.
  apply cancelling_run_callback; [done..|]. by rewrite tasks_run_callback in Hok'.
Qed.

(** Cancelling the loop at its join puts the cancellation in effect. *)
Lemma cancelling_at_join st : loc st = AtGather → cancelling (cancel st).
Proof.
  intros Hl. unfold cancelling, cancel. rewrite Hl.
  destruct (outer st) as [r|] eqn:Hout; [simpl; rewrite Hl; by left|].
  destruct (forallb is_finished (children st)); simpl; rewrite Hl, ?Hout; [by left|by right].
Qed.

(** Once every task has ended and every callback has run, a cancelled
    loop returns at its next resumption. *)
Lemma cancelling_settled st :
  cancelling st → well_formed st → Forall fin (tasks st) → callbacks st = [] →
  loc (resume_main st) = Stopped (Returned ()).
Proof.
  unfold cancelling, resume_main, join_outcome, receive_batch, raise_in_loop.
  intros Hcan (_ & _ & Hwf) Hall Hcb.
  destruct (loc st) eqn:Hl.
  - by rewrite Hcan.
  - by rewrite Hcan.
  - destruct (outer st) as [r|] eqn:Hout.
    + destruct Hcan as [->|[_ Ho]]; [done|].
      rewrite (Ho r eq_refl). by destruct (must_cancel st).
    + exfalso. destruct Hwf as [Hwf|Hwf]; [|done].
      apply Hwf. unfold children. by apply Forall_drop.
  - by rewrite ?Hl, Hcan.
Qed.

Lemma cancelled_asleep_step e st : cancelled_asleep st → cancelled_asleep (step e st).
Proof.
  unfold cancelled_asleep. destruct e as [|i| |]; simpl.
  - unfold resume_main, join_outcome, receive_batch, raise_in_loop.
    destruct (loc st) eqn:Hl; [by intros ->..|done|by rewrite Hl].
  - by rewrite loc_resume_child, must_cancel_resume_child.
  - by rewrite loc_run_callback, must_cancel_run_callback.
  - unfold cancel. destruct (loc st) eqn:Hl; [by simpl; rewrite Hl..|done|by rewrite Hl].
Qed.

Lemma cancelled_asleep_resumed st :
  cancelled_asleep st → loc (resume_main st) = Stopped (Returned ()).
Proof.
  unfold cancelled_asleep, resume_main, join_outcome, receive_batch, raise_in_loop.
  destruct (loc st) eqn:Hl; [by intros ->..|done|]. intros ->. by rewrite Hl.
Qed.

(** *** Schedules of handler events *)

(** Under such a schedule every task takes as many steps as the schedule
    resumes it. *)
Lemma tasks_run_handler_events s st j :
  forallb is_handler_event s = true →
  tasks (run s st) !! j = Nat.iter (resumptions j s) resume_task <$> tasks st !! j.
Proof.
  revert st. induction s as [|e s IH]; intros st Hs; simpl in *.
  - by destruct (tasks st !! j).
  - apply andb_prop in Hs as [He Hs]. destruct e as [|i| |]; try done; simpl.
    + rewrite IH, tasks_resume_child by done.
      case_decide as Hij; [|done].
      subst j. destruct (tasks st !! i) as [t|]; simpl; [|done].
      f_equal. symmetry. apply (Nat.iter_succ_r _ resume_task t).
    + by rewrite IH, tasks_run_callback.
Qed.

(** [settle] lets every task end. *)
Lemma settle_finishes st : Forall fin (tasks (run (settle st) st)).
Proof.
  apply Forall_lookup. intros j t. unfold settle.
  rewrite tasks_run_handler_events by apply handler_events_rounds.
  destruct (tasks st !! j) as [t0|] eqn:Hj; [|done]. simpl. intros [= <-].
  rewrite resumptions_rounds by (by eapply lookup_lt_Some).
  apply iter_resume_finished, max_list_elem_of_le, list_elem_of_fmap.
  exists t0. split; [done|]. by eapply list_elem_of_lookup_2.
Qed.

(** [drain] runs every scheduled callback and touches no task. *)
Lemma drain_runs_callbacks st :
  callbacks (run (drain st) st) = [] ∧ tasks (run (drain st) st) = tasks st.
Proof.
  unfold drain. remember (length (callbacks st)) as n eqn:Hn.
  revert st Hn. induction n as [|n IH]; intros st Hn; simpl.
  - split; [|done]. by apply nil_length_inv.
  - destruct (IH (run_callback st)) as [Hcb Ht].
    { rewrite callbacks_run_callback. destruct (callbacks st); simpl in *; lia. }
    split; [done|]. by rewrite Ht, tasks_run_callback.
Qed.

Lemma handler_events_quiesce st : forallb is_handler_event (quiesce st) = true.
Proof.
  unfold quiesce, settle.
  by rewrite forallb_app, handler_events_rounds, handler_events_drain.
Qed.

(** [quiesce] leaves no task running and no callback to run. *)
Lemma quiesce_settles st :
  Forall fin (tasks (run (quiesce st) st)) ∧ callbacks (run (quiesce st) st) = [].
Proof.
  unfold quiesce. rewrite run_app.
  destruct (drain_runs_callbacks (run (settle st) st)) as [Hcb Ht].
  split; [|done]. rewrite Ht. apply settle_finishes.
Qed.

(** *** A dispatch whose handlers all succeed *)

Lemma children_dispatch batch st :
  children (dispatch handler batch st) = (λ m, NotStarted (handler m) false) <$> batch.
Proof.
  unfold children, dispatch, gather; simpl.
  rewrite drop_app_length. by rewrite <- list_fmap_compose.
Qed.

Lemma all_succeeding_dispatch batch st :
  Forall (λ m, succeeds (handler m) = true) batch →
  all_succeeding (dispatch handler batch st).
Proof.
  intros Hb. unfold all_succeeding. rewrite children_dispatch. simpl.
  split_and!; [done| |done|].
  - by rewrite Forall_fmap.
  - destruct batch as [|m batch]; simpl; [done|].
    left. intros Hf. apply Forall_cons_1 in Hf as [Hf _]. discriminate.
Qed.

Lemma all_succeeding_resume_child i st :
  all_succeeding st → all_succeeding (resume_child i st).
Proof.
  intros (Hc & Hs & Hcb & Ho).
  assert (∀ t, (base st ≤ i)%nat → tasks st !! i = Some t →
            succeeding_task (resume_task t) = true) as Hres.
  { intros t Hle Hi. apply resume_task_succeeding.
    rewrite Forall_lookup in Hs. apply (Hs (i - base st)%nat).
    by rewrite children_lookup. }
  destruct (resume_child_resumed i st) as [Hidle|t k h Hi Hf Hr|t r Hi Hf Hr Hlt|t r Hi Hf Hr Hle];
    [done|..]; unfold all_succeeding.
  - destruct (decide (i < base st)%nat).
    { rewrite children_set_task_lt by done. done. }
    rewrite children_set_task_ge by lia. simpl. split_and!; [done| |done|].
    + apply Forall_insert; [done|]. rewrite <- Hr. apply Hres; [lia|done].
    + destruct (outer st); [done|]. left. rewrite <- children_set_task_ge by lia.
      eapply (unfinished_drop _ (base st) i (Suspended k h false)); [lia| |done].
      apply list_lookup_insert_eq. by eapply lookup_lt_Some.
  - rewrite children_set_task_lt by done. done.
  - rewrite children_completed, children_set_task_ge by lia.
    specialize (Hres t Hle Hi). rewrite Hr in Hres.
    simpl. split_and!; [done|by apply Forall_insert| |].
    + apply Forall_app. split; [done|]. apply Forall_singleton. simpl.
      by destruct r as [[]|].
    + destruct (outer st); [done|]. right. intros [_ ?]%app_eq_nil. done.
Qed.

Lemma all_succeeding_run_callback st :
  all_succeeding st → all_succeeding (run_callback st).
Proof.
  intros Hsucc. pose proof Hsucc as (Hc & Hs & Hcb & Ho). unfold run_callback.
  destruct (callbacks st) as [|[i r] rest] eqn:Hcbs; [done|].
  apply Forall_cons_1 in Hcb as [Hr Hrest]. simpl in Hr. subst r.
  unfold all_succeeding. rewrite children_run_callback_done. simpl.
  split_and!; [done..|].
  destruct (outer st); [done|]. rewrite Hc.
  destruct (is_empty rest) eqn:He; simpl.
  - destruct (forallb is_finished (children st)) eqn:Hall; [done|].
    left. intros Hall'. apply forallb_finished in Hall'. congruence.
  - right. intros ->. done.
Qed.

(** While only handler tasks and callbacks run, the loop stays where it
    is. *)
Lemma during_dispatch st s :
  forallb is_handler_event s = true →
  all_succeeding st →
  let st' := run s st in
  all_succeeding st' ∧ calls st' = calls st ∧ base st' = base st ∧
  length (tasks st') = length (tasks st) ∧ loc st' = loc st ∧
  must_cancel st' = must_cancel st.
Proof.
  intros Hs Hst. simpl.
  apply (run_invariant_on is_handler_event
           (λ st', all_succeeding st' ∧ calls st' = calls st ∧ base st' = base st ∧
                   length (tasks st') = length (tasks st) ∧ loc st' = loc st ∧
                   must_cancel st' = must_cancel st)); [done| |done].
  intros [|i| |] st' He (Hsucc & Hcalls & Hbase & Hlen & Hloc & Hm); try done; simpl.
  - rewrite calls_resume_child, base_resume_child, length_tasks_resume_child,
      loc_resume_child, must_cancel_resume_child.
    split_and!; [by apply all_succeeding_resume_child|done..].
  - rewrite calls_run_callback, base_run_callback, tasks_run_callback,
      loc_run_callback, must_cancel_run_callback.
    split_and!; [by apply all_succeeding_run_callback|done..].
Qed.

(** *** A loop that has ended *)

Lemma stopped_step e st r :
  loc st = Stopped r →
  let st' := step e st in
  loc st' = Stopped r ∧ queue st' = queue st ∧ calls st' = calls st.
Proof.
  intros Hl. destruct e as [|i| |]; simpl.
  - unfold resume_main. by rewrite Hl.
  - by destruct (resume_child_resumed i st).
  - unfold run_callback. by destruct (callbacks st) as [|[]].
  - unfold cancel. by rewrite Hl.
Qed.

Lemma stopped_run s st r :
  loc st = Stopped r →
  let st' := run s st in
  loc st' = Stopped r ∧ queue st' = queue st ∧ calls st' = calls st.
Proof.
  intros Hl. simpl.
  apply (run_invariant
           (λ st', loc st' = Stopped r ∧ queue st' = queue st ∧ calls st' = calls st));
    [done|].
  intros e st' (Hl' & Hq & Hc).
  destruct (stopped_step e st' r Hl') as (? & ? & ?). split_and!; congruence.
Qed.

Lemma never_raises_cancelled_step e st :
  loc st ≠ Stopped (Raised CancelledError) →
  loc (step e st) ≠ Stopped (Raised CancelledError).
Proof.
  intros Hl. destruct e as [|i| |]; simpl.
  - unfold resume_main, join_outcome, receive_batch, raise_in_loop.
    destruct (loc st) eqn:Hloc; [| | |by rewrite Hloc].
    + destruct (must_cancel st); [by simpl|].
      destruct (take_batch _ _) as [batch q']. by destruct (is_empty batch); simpl.
    + by destruct (must_cancel st); simpl.
    + destruct (outer st) as [r|]; [|by rewrite Hloc].
      destruct (must_cancel st); [by simpl|]. by destruct r as [|[]]; simpl.
  - by rewrite loc_resume_child.
  - by rewrite loc_run_callback.
  - unfold cancel. destruct (loc st) eqn:Hloc; [by simpl; rewrite Hloc..| |by rewrite Hloc].
    destruct (outer st); [by simpl; rewrite Hloc|].
    destruct (forallb _ _); by simpl; rewrite Hloc.
Qed.

Lemma resume_child_no_tasks i st : tasks st = [] → resume_child i st = st.
Proof. intros Ht. unfold resume_child. by rewrite Ht. Qed.

Lemma run_callback_idle st : callbacks st = [] → run_callback st = st.
Proof. intros Hcb. unfold run_callback. by rewrite Hcb. Qed.

Lemma outer_run_callback_settled st o :
  outer st = Some o → outer (run_callback st) = Some o.
Proof.
  intros Ho. unfold run_callback. destruct (callbacks st) as [|[i r] rest]; [done|].
  simpl. by rewrite Ho.
Qed.

Lemma resume_main_failed_join st e :
  loc st = AtGather → outer st = Some (Raised e) →
  resume_main st =
    stop (if must_cancel st then Returned () else except_clause e) st.
Proof.
  intros Hl Ho. unfold resume_main, join_outcome, raise_in_loop. rewrite Hl, Ho.
  by destruct (must_cancel st).
Qed.

Lemma uncancelled_step e st :
  is_cancel e = false → uncancelled st → uncancelled (step e st).
Proof.
  intros He [Hm Hst]. destruct e as [|i| |]; [| | |done]; simpl.
  - unfold resume_main, join_outcome, receive_batch, raise_in_loop, uncancelled.
    rewrite Hm. destruct (loc st) eqn:Hl.
    + destruct (take_batch _ _) as [[|m b] q']; simpl; by rewrite ?Hl.
    + simpl. by rewrite ?Hl.
    + destruct (outer st) as [[[]|e]|] eqn:Ho; simpl; rewrite ?Hl, ?Ho; try done.
      * split; [done|]. by left.
      * split; [done|]. by exists e.
    + by rewrite Hl.
  - unfold uncancelled. rewrite must_cancel_resume_child, loc_resume_child.
    split; [done|]. destruct (loc st); [| |done|by rewrite outer_resume_child].
    all: destruct Hst as [Ho|(Ho & Ht & Hcb)];
      [left; by rewrite outer_resume_child|right; by rewrite resume_child_no_tasks].
  - unfold uncancelled. rewrite must_cancel_run_callback, loc_run_callback.
    split; [done|]. destruct (loc st); [| |done|].
    1,2: destruct Hst as [Ho|(Ho & Ht & Hcb)];
      [left; by apply outer_run_callback_settled|right; by rewrite run_callback_idle].
    destruct Hst as (e & Ho & ->). exists e. split; [|done].
    by apply outer_run_callback_settled.
Qed.

Lemma uncancelled_run q s :
  forallb (λ e, negb (is_cancel e)) s = true → uncancelled (process_queue_forever q s).
Proof.
  intros Hs. unfold process_queue_forever.
  apply (run_invariant_on (λ e, negb (is_cancel e))); [|by intros e st' He%negb_true_iff; apply uncancelled_step|done].
  split; [done|]. by right.
Qed.

Lemma failed_join_step e st reason :
  failed_join reason st →
  failed_join reason (step e st) ∧
  queue (step e st) = queue st ∧ calls (step e st) = calls st.
Proof.
  intros [Ho Hl]. destruct Hl as [Hl|Hl].
  - destruct e as [|i| |]; simpl.
    + rewrite (resume_main_failed_join st _ Hl Ho). unfold failed_join. simpl.
      split_and!; [done| |done..]. right. destruct (must_cancel st); [by right|by left].
    + unfold failed_join.
      rewrite outer_resume_child, loc_resume_child, queue_resume_child, calls_resume_child.
      split_and!; [done|by left|done..].
    + unfold failed_join.
      rewrite (outer_run_callback_settled _ _ Ho), loc_run_callback, queue_run_callback,
        calls_run_callback.
      split_and!; [done|by left|done..].
    + unfold failed_join. rewrite outer_cancel, loc_cancel, queue_cancel, calls_cancel.
      split_and!; [done|by left|done..].
  - assert (∃ r, loc st = Stopped r) as [r Hr] by (destruct Hl; by eexists).
    destruct (stopped_step e st r Hr) as (Hl' & Hq & Hc).
    assert (outer (step e st) = outer st) as Ho'.
    { destruct e as [|i| |]; simpl.
      - unfold resume_main. by rewrite Hr.
      - apply outer_resume_child.
      - rewrite Ho. by apply outer_run_callback_settled.
      - apply outer_cancel. }
    split_and!; [|done..]. split; [congruence|]. right. rewrite Hl', <- Hr. done.
Qed.

Lemma failed_join_run s st reason :
  failed_join reason st →
  failed_join reason (run s st) ∧
  queue (run s st) = queue st ∧ calls (run s st) = calls st.
Proof.
  intros Hst.
  apply (run_invariant
           (λ st', failed_join reason st' ∧ queue st' = queue st ∧ calls st' = calls st));
    [done|].
  intros e st' (Hf & Hq & Hc). destruct (failed_join_step e st' reason Hf) as (? & ? & ?).
  split_and!; congruence.
Qed.

Lemma error_due_step e st reason :
  is_cancel e = false → error_due reason st → error_due reason (step e st).
Proof.
  intros He (Hm & Ho & Hl). unfold error_due.
  destruct (failed_join_step e st reason) as ((Ho' & _) & _); [split; tauto|].
  destruct e as [|i| |]; [| | |done]; simpl in *.
  - destruct Hl as [Hl|Hl].
    + rewrite (resume_main_failed_join st _ Hl Ho), Hm. simpl. tauto.
    + unfold resume_main. rewrite Hl. tauto.
  - rewrite must_cancel_resume_child, loc_resume_child. tauto.
  - rewrite must_cancel_run_callback, loc_run_callback. tauto.
Qed.

Lemma error_due_resumed st reason :
  error_due reason st → loc (resume_main st) = Stopped (Raised (HandlerError reason)).
Proof.
  intros (Hm & Ho & [Hl|Hl]).
  - by rewrite (resume_main_failed_join st _ Hl Ho), Hm.
  - unfold resume_main. by rewrite Hl.
Qed.

Lemma cancel_due_step e st : cancel_due st → cancel_due (step e st).
Proof.
  intros [(Hl & Hm & o & Ho)|Hl].
  - destruct e as [|i| |]; simpl.
    + right. unfold resume_main, join_outcome, raise_in_loop. by rewrite Hl, Ho, Hm.
    + left. rewrite loc_resume_child, must_cancel_resume_child, outer_resume_child. eauto.
    + left. rewrite loc_run_callback, must_cancel_run_callback.
      split_and!; [done..|]. exists o. by apply outer_run_callback_settled.
    + left. rewrite loc_cancel, outer_cancel. split_and!; [done| |eauto].
      unfold cancel. by rewrite Hl, Ho.
  - right. by apply stopped_step.
Qed.

Lemma cancel_due_resumed st : cancel_due st → loc (resume_main st) = Stopped (Returned ()).
Proof.
  intros [(Hl & Hm & o & Ho)|Hl].
  - unfold resume_main, join_outcome, raise_in_loop. by rewrite Hl, Ho, Hm.
  - unfold resume_main. by rewrite Hl.
Qed.

Lemma run_cons e s st : run (e :: s) st = run s (step e st).
Proof. done. Qed.

(** ** The claims about the loop *)

(** C2, as the code has it: without cancellation, a failure that a
    dispatch reports (held by the gather future, or raised out of the
    loop) is the first failure in the order the handler invocations of
    the batch reached a terminal state, and it is the failure of an
    invocation that has ended; a pending gather future takes the failure
    of an invocation as soon as the callback of that invocation runs,
    whatever state the other invocations of the batch are in, and leaves
    them as they are. *)
Theorem gather_reports_first_failure q schedule :
  forallb (λ e, negb (is_cancel e)) schedule = true →
  let st := process_queue_forever q schedule in
  (∀ e, outer st = Some (Raised e) ∨ loc st = Stopped (Raised e) →
     ∃ i, first_failure (completions st) = Some (i, e) ∧
          tasks st !! i = Some (Finished (Raised e)))
  ∧ (∀ i e rest, outer st = None → callbacks st = (i, Raised e) :: rest →
       outer (run_callback st) = Some (Raised e) ∧
       tasks (run_callback st) = tasks st).
Proof.
  intros Hs st. split.
  - assert (first_failure_reported st) as (_ & _ & (processed & Hlog & Ho) & Hl).
    { unfold st, process_queue_forever.
      apply (run_invariant_on (λ e, negb (is_cancel e))); [| |done].
      - repeat split; try done. by exists [].
      - intros e st' He. apply reported_step. by destruct (is_cancel e). }
    intros e He. assert (outer st = Some (Raised e)) as Hout by (destruct He; auto).
    rewrite Hout in Ho. destruct Ho as [i Hi]. exists i.
    assert (first_failure (completions st) = Some (i, e)) as Hfirst
      by (by rewrite Hlog, first_failure_app, Hi).
    split; [done|]. apply (logged_run q schedule), elem_of_app. left.
    by apply first_failure_elem.
  - intros i e rest Hout Hcb. split; [|apply tasks_run_callback].
    unfold run_callback. rewrite Hcb. simpl. by rewrite Hout.
Qed.

(** C3, as the code has it: a loop cancelled at the sleep of a fetch or
    at the back-off sleep has returned normally once it is resumed,
    whatever happens in between; a loop cancelled at the join returns
    normally once its handler tasks have run to their ends, their
    callbacks have run and it is resumed, provided no handler invocation
    has ended with an error of its own; and no run ends by raising
    [CancelledError] to the caller. *)
Theorem cancellation_returns_normally :
  (∀ st schedule,
     loc st = AtFetchSleep ∨ loc st = AtBackoffSleep →
     loc (run (Cancel :: schedule ++ [ResumeMain]) st) = Stopped (Returned ()))
  ∧ (∀ q before after,
       let st := process_queue_forever q before in
       let st' := run (Cancel :: after) st in
       let st'' := run (quiesce st') st' in
       loc st = AtGather →
       existsb handler_failed (tasks st'') = false →
       loc (run [ResumeMain] st'') = Stopped (Returned ()))
  ∧ (∀ q schedule,
       loc (process_queue_forever q schedule) ≠ Stopped (Raised CancelledError)).
Proof.
  split_and!.
  - intros st schedule Hl.
    change (Cancel :: schedule ++ [ResumeMain]) with ((Cancel :: schedule) ++ [ResumeMain]).
    rewrite run_snoc. simpl.
    apply cancelled_asleep_resumed, run_invariant; [|apply cancelled_asleep_step].
    unfold cancelled_asleep, cancel. by destruct Hl as [Hl|Hl]; rewrite Hl; simpl; rewrite Hl.
  - intros q before after st st' st'' Hl Hok. simpl.
    destruct (quiesce_settles st') as [Hfin Hcb]. fold st'' in Hfin, Hcb.
    assert (well_formed st'') as Hwf.
    { unfold st'', st'. do 2 apply well_formed_run_from. apply well_formed_run. }
    apply cancelling_settled; [|done..].
    assert (st'' = run (after ++ quiesce st') (cancel st)) as Hrun
      by (unfold st'', st'; simpl; by rewrite run_app).
    rewrite Hrun in Hok |- *.
    apply cancelling_run; [by apply cancelling_at_join| |done].
    apply logged_cancel, logged_run.
  - intros q schedule. unfold process_queue_forever.
    apply run_invariant; [done|]. intros e st'. apply never_raises_cancelled_step.
Qed.

(** C4, as the code has it: in a run in which the loop's task is not
    cancelled, a handler error that a dispatch has failed with (the
    gather future holds it) reaches the caller: the loop, resumed, has
    ended by raising exactly that error, and stays so.  From the moment
    the dispatch has failed nothing is fetched and no handler is called,
    whatever the event loop does, and the loop can only wait at the join
    or have ended: there is no retry and the loop does not go on.  But
    the error is not always visible: when the loop's task is cancelled
    after the dispatch has failed and before the loop is resumed, the
    [await] raises [CancelledError] instead, the [except] clause
    returns, and the handler error is absorbed. *)
Theorem handler_error_propagates :
  (∀ q before after later reason,
     forallb (λ e, negb (is_cancel e)) (before ++ after) = true →
     outer (process_queue_forever q before) = Some (Raised (HandlerError reason)) →
     loc (run later (process_queue_forever q (before ++ after ++ [ResumeMain])))
       = Stopped (Raised (HandlerError reason)))
  ∧ (∀ st reason s,
       loc st = AtGather → outer st = Some (Raised (HandlerError reason)) →
       queue (run s st) = queue st ∧ calls (run s st) = calls st ∧
       (loc (run s st) = AtGather
        ∨ loc (run s st) = Stopped (Raised (HandlerError reason))
        ∨ loc (run s st) = Stopped (Returned ())))
  ∧ (∀ st reason s1 s2,
       loc st = AtGather → outer st = Some (Raised (HandlerError reason)) →
       forallb is_handler_event s1 = true →
       loc (run (s1 ++ Cancel :: s2 ++ [ResumeMain]) st) = Stopped (Returned ())).
Proof.
  split_and!.
  - intros q before after later reason Hs Ho.
    rewrite forallb_app in Hs. apply andb_prop in Hs as [Hb Ha].
    apply stopped_run. unfold process_queue_forever.
    rewrite !app_assoc, run_snoc, run_app. simpl.
    fold (process_queue_forever q before).
    apply error_due_resumed.
    apply (run_invariant_on (λ e, negb (is_cancel e)));
      [|by intros e st' He%negb_true_iff; apply error_due_step|done].
    destruct (uncancelled_run q before Hb) as [Hm Hst].
    split_and!; [done..|].
    destruct (loc (process_queue_forever q before)) as [| | |r]; [| |by left|].
    1,2: destruct Hst as [Hst|[Hst _]]; congruence.
    destruct Hst as (e & He & ->). right. by replace e with (HandlerError reason) by congruence.
  - intros st reason s Hl Ho.
    destruct (failed_join_run s st reason) as ((_ & ?) & ? & ?); [|done].
    split; [done|by left].
  - intros st reason s1 s2 Hl Ho Hs1.
    rewrite run_app, run_cons, run_snoc. simpl.
    apply cancel_due_resumed, run_invariant; [|intros e st'; apply cancel_due_step].
    assert (loc (run s1 st) = AtGather ∧
            outer (run s1 st) = Some (Raised (HandlerError reason))) as [Hl1 Ho1].
    { apply (run_invariant_on is_handler_event); [done| |done].
      intros [|i| |] st' He [Hl' Ho']; try done; simpl.
      - by rewrite loc_resume_child, outer_resume_child.
      - by rewrite loc_run_callback, (outer_run_callback_settled _ _ Ho'). }
    left. rewrite loc_cancel, outer_cancel. split_and!; [done| |by eexists].
    unfold cancel. by rewrite Hl1, Ho1.
Qed.

(** C8: whenever the loop is inside a fetch, every handler task created
    so far has reached a terminal state: a fetch starts only after the
    dispatch before it has settled, and no handler runs during it. *)
Theorem fetch_waits_for_dispatch q schedule :
  let st := process_queue_forever q schedule in
  loc st = AtFetchSleep → Forall (λ t, is_finished t = true) (tasks st).
Proof.
  intros st Hl. destruct (well_formed_run q schedule) as (_ & _ & H).
  fold st in H. by rewrite Hl in H.
Qed.

(** C9: dispatching a batch of [K] messages whose handler invocations all
    succeed calls the handler once per message, in order, and creates
    [K] tasks; while the handlers run the gather future never holds a
    failure; it holds success once all [K] have ended and their
    callbacks have run, which they do; and the loop, resumed then, goes
    on to its next fetch. *)
Theorem dispatch_all_succeed st batch :
  Forall (λ m, succeeds (handler m) = true) batch →
  let st1 := dispatch handler batch st in
  calls st1 = calls st ++ batch
  ∧ children st1 = (λ m, NotStarted (handler m) false) <$> batch
  ∧ (∀ schedule, forallb is_handler_event schedule = true →
       let st2 := run schedule st1 in
       calls st2 = calls st ++ batch
       ∧ length (children st2) = length batch
       ∧ (outer st2 = None ∨ outer st2 = Some (Returned ()))
       ∧ (Forall fin (children st2) → callbacks st2 = [] →
          outer st2 = Some (Returned ())))
  ∧ outer (run (quiesce st1) st1) = Some (Returned ())
  ∧ (must_cancel st = false →
     loc (run (quiesce st1 ++ [ResumeMain]) st1) = AtFetchSleep).
Proof.
  intros Hb st1.
  pose proof (all_succeeding_dispatch batch st Hb) as Hsucc. fold st1 in Hsucc.
  assert (∀ schedule, forallb is_handler_event schedule = true →
            Forall fin (children (run schedule st1)) →
            callbacks (run schedule st1) = [] →
            outer (run schedule st1) = Some (Returned ())) as Hdone.
  { intros schedule Hs Hall Hcb.
    destruct (during_dispatch st1 schedule Hs Hsucc) as ((_ & _ & _ & Ho) & _).
    destruct (outer (run schedule st1)) as [r|]; [by subst r|]. by destruct Ho. }
  assert (outer (run (quiesce st1) st1) = Some (Returned ())) as Hsettled.
  { destruct (quiesce_settles st1) as [Hfin Hcb].
    apply Hdone; [apply handler_events_quiesce| |done].
    unfold children. by apply Forall_drop. }
  split_and!; [done|apply children_dispatch| |done|].
  - intros schedule Hs st2.
    destruct (during_dispatch st1 schedule Hs Hsucc)
      as ((_ & _ & _ & Ho) & Hcalls & Hbase & Hlen & _).
    fold st2 in Ho, Hcalls, Hbase, Hlen.
    split_and!; [done| | |by apply Hdone].
    + unfold children. rewrite length_drop, Hbase, Hlen, <- length_drop.
      fold (children st1). unfold st1. by rewrite children_dispatch, length_fmap.
    + destruct (outer st2) as [r|]; [right; by subst r|by left].
  - intros Hm. rewrite run_snoc. simpl.
    destruct (during_dispatch st1 (quiesce st1) (handler_events_quiesce _) Hsucc)
      as (_ & _ & _ & _ & Hloc & Hm').
    unfold resume_main, join_outcome. rewrite Hloc, Hm', Hsettled. simpl. by rewrite Hm.
Qed.
End loop_facts.

(** ** Concrete runs *)

(** C2 as stated fails: the batch ["a"; "b"; "c"] is dispatched, the
    handler of ["a"] fails at once, the handler of ["b"] has started its
    sleep, the handler of ["c"] has not started.  No cancellation is
    involved.  The gather future holds the failure and the loop, resumed,
    raises it, while two invocations of the batch have not reached a
    terminal state. *)
Lemma gather_fails_before_siblings_settle :
  let schedule := [ResumeMain; ResumeChild 0; ResumeChild 1; RunCallback; ResumeMain] in
  let st := process_queue_forever fails_on_a 5 abc schedule in
  forallb (λ e, negb (is_cancel e)) schedule = true ∧
  outer st = Some (Raised (HandlerError "boom")) ∧
  loc st = Stopped (Raised (HandlerError "boom")) ∧
  tasks st !! 1%nat = Some (Suspended Return (Raise CancelledError) false) ∧
  ¬ Forall (λ t, is_finished t = true) (children st).
Proof.
  split_and!; [reflexivity..|].
  intros H. apply Forall_cons_1 in H as [_ H]. apply Forall_cons_1 in H as [H _].
  discriminate H.
Qed.

Lemma gather_reports_first_failure_witness :
  let st := process_queue_forever fails_on_a 5 abc
              [ResumeMain; ResumeChild 1; ResumeChild 0; RunCallback] in
  ∃ i, first_failure (completions st) = Some (i, HandlerError "boom") ∧
       tasks st !! i = Some (Finished (Raised (HandlerError "boom"))).
Proof.
  apply (gather_reports_first_failure fails_on_a 5 abc
           [ResumeMain; ResumeChild 1; ResumeChild 0; RunCallback] eq_refl).
  left. reflexivity.
Defined.

(** C3 as stated fails, in two ways.  The loop is cancelled while it
    waits at the join for a handler that answers the cancellation of its
    sleep with an error of its own: the loop ends by raising that error.
    And the loop is cancelled at the join after the handler of ["a"] has
    failed and before the callback of that failure has run: the loop
    ends by raising the handler's error. *)
Lemma cancelled_join_raises_handler_error :
  (let st := process_queue_forever raises_on_cancel 5 abc [ResumeMain; ResumeChild 0] in
   let st' := run raises_on_cancel 5 [Cancel; ResumeChild 0; RunCallback; ResumeMain] st in
   loc st = AtGather ∧ loc st' = Stopped (Raised (HandlerError "KeyError")))
  ∧
  (let st := process_queue_forever fails_on_a 5 abc [ResumeMain; ResumeChild 0; ResumeChild 1] in
   let st' := run fails_on_a 5 [Cancel; RunCallback; ResumeMain] st in
   loc st = AtGather ∧ outer st = None ∧ loc st' = Stopped (Raised (HandlerError "boom"))).
Proof. repeat split. Qed.

Lemma cancellation_returns_normally_witness :
  let st := process_queue_forever example_handler 5 abc [ResumeMain; ResumeChild 0] in
  let st' := run example_handler 5 [Cancel; ResumeChild 2] st in
  let st'' := run example_handler 5 (quiesce example_handler 5 st') st' in
  loc st = AtGather ∧ loc (run example_handler 5 [ResumeMain] st'') = Stopped (Returned ()).
Proof.
  split; [reflexivity|].
  apply (proj1 (proj2 (cancellation_returns_normally example_handler 5))
           abc [ResumeMain; ResumeChild 0] [ResumeChild 2]); reflexivity.
Defined.

(** C4 as stated fails: the handler of ["a"] has failed, its callback
    has run and the gather future holds the error; the loop's task is
    cancelled before the loop is resumed.  The loop returns normally and
    the handler error reaches nobody. *)
Lemma cancel_absorbs_handler_error :
  let st := process_queue_forever fails_on_a 5 abc
              [ResumeMain; ResumeChild 0; ResumeChild 1; ResumeChild 2; RunCallback] in
  let st' := run fails_on_a 5 [Cancel; ResumeMain] st in
  loc st = AtGather ∧ outer st = Some (Raised (HandlerError "boom")) ∧
  tasks st !! 0%nat = Some (Finished (Raised (HandlerError "boom"))) ∧
  loc st' = Stopped (Returned ()).
Proof. repeat split. Qed.

Lemma handler_error_propagates_witness :
  let before := [ResumeMain; ResumeChild 0; ResumeChild 1; RunCallback] in
  let after := [ResumeChild 2; ResumeChild 1] in
  let later := [Cancel; ResumeMain; ResumeChild 2] in
  outer (process_queue_forever fails_on_a 5 abc before)
    = Some (Raised (HandlerError "boom")) ∧
  loc (run fails_on_a 5 later
         (process_queue_forever fails_on_a 5 abc (before ++ after ++ [ResumeMain])))
    = Stopped (Raised (HandlerError "boom")).
Proof.
  split; [reflexivity|].
  apply (proj1 (handler_error_propagates fails_on_a 5) abc
           [ResumeMain; ResumeChild 0; ResumeChild 1; RunCallback]
           [ResumeChild 2; ResumeChild 1] [Cancel; ResumeMain; ResumeChild 2]);
    reflexivity.
Defined.

Lemma fetch_waits_for_dispatch_witness :
  let st := process_queue_forever example_handler 2 abc
              [ResumeMain; ResumeChild 1; ResumeChild 0; ResumeChild 0; RunCallback;
               ResumeChild 1; RunCallback; ResumeMain] in
  loc st = AtFetchSleep ∧ messages (queue st) = ["c"]%string ∧
  Forall (λ t, is_finished t = true) (tasks st).
Proof.
  split; [reflexivity|]. split; [reflexivity|].
  apply (fetch_waits_for_dispatch example_handler 2 abc). reflexivity.
Defined.

Lemma dispatch_all_succeed_witness :
  let st1 := dispatch example_handler ["a"; "b"]%string (start {| messages := ["c"]%string |}) in
  calls st1 = ["a"; "b"]%string ∧
  outer (run example_handler 2 (quiesce example_handler 2 st1) st1) = Some (Returned ()) ∧
  loc (run example_handler 2 (quiesce example_handler 2 st1 ++ [ResumeMain]) st1)
    = AtFetchSleep.
Proof.
  pose proof (dispatch_all_succeed example_handler 2
                (start {| messages := ["c"]%string |}) ["a"; "b"]%string
                (Forall_cons_2 _ _ _ eq_refl (Forall_cons_2 _ _ _ eq_refl (Forall_nil_2 _))))
    as (Hcalls & _ & _ & Hout & Hloc).
  split; [exact Hcalls|]. split; [exact Hout|]. exact (Hloc eq_refl).
Defined.

(** The scenario of seven pending messages with [batch_size = 5] and the
    handler of the source: the first dispatch has five tasks, the second
    two, the third fetch finds nothing and the loop backs off. *)
Example seven_messages_loop :
  let q := {| messages := ["a"; "b"; "c"; "d"; "e"; "f"; "g"]%string |} in
  let next st := run example_handler 5
                   (quiesce example_handler 5 st ++ [ResumeMain; ResumeMain]) st in
  let st1 := process_queue_forever example_handler 5 q [ResumeMain] in
  let st2 := next st1 in
  let st3 := next st2 in
  calls st1 = ["a"; "b"; "c"; "d"; "e"]%string ∧ loc st1 = AtGather ∧
  calls st2 = ["a"; "b"; "c"; "d"; "e"; "f"; "g"]%string ∧ loc st2 = AtGather ∧
  length (children st2) = 2%nat ∧
  calls st3 = calls st2 ∧ loc st3 = AtBackoffSleep.
Proof. repeat split. Qed.

(** * Further properties *)

(** ** Fetches *)

Section more_queue_facts.
Implicit Types (q : InMemoryQueue) (n : Z).

Lemma take_batch_empty_iff q n :
  (take_batch q n).1 = [] ↔ n ≤ 0 ∨ messages q = [].
Proof.
  unfold take_batch. destruct (Z.leb_spec n 0) as [Hn|Hn]; simpl.
  - split; [by left|done].
  - destruct q as [[|m l]]; simpl.
    + split; [by right|done].
    + unfold slice_to. rewrite slice_stop_nonneg by lia. simpl.
      destruct (Z.to_nat n) as [|k] eqn:Hk; [lia|]. simpl.
      split; [done|]. intros [?|?]; [lia|done].
Qed.

Lemma take_batch_unchanged q n :
  (take_batch q n).1 = [] → (take_batch q n).2 = q.
Proof.
  intros He. pose proof (take_batch_conserves q n) as Hc. rewrite He in Hc.
  destruct q as [l]. simpl in *. destruct (take_batch _ _) as [b [l']]. simpl in *.
  by subst.
Qed.

Lemma take_batch_length q n : (length (take_batch q n).1 ≤ Z.to_nat n)%nat.
Proof.
  unfold take_batch. destruct (Z.leb_spec n 0) as [Hn|Hn]; simpl; [lia|].
  destruct (is_empty _); simpl; [lia|].
  unfold slice_to. rewrite slice_stop_nonneg, length_take by lia. lia.
Qed.

(** X1: an uncancelled [receive_batch] returns the empty list exactly
    when [batch_size ≤ 0] or nothing is pending, and then it leaves the
    queue as it was: with a positive [batch_size] and a pending message
    it always hands out at least one. *)
Theorem receive_batch_empty_iff q n :
  ((receive_batch Completed q n).1 = Returned [] ↔ n ≤ 0 ∨ messages q = [])
  ∧ ((receive_batch Completed q n).1 = Returned [] → (receive_batch Completed q n).2 = q).
Proof.
  unfold receive_batch.
  pose proof (take_batch_empty_iff q n) as Hiff.
  pose proof (take_batch_unchanged q n) as Hsame.
  destruct (take_batch q n) as [b q']. simpl in *. split.
  - rewrite <- Hiff. split; [by intros [= ->]|by intros ->].
  - intros [= ->]. by apply Hsame.
Qed.

(** X2: two fetches in a row, of [n] and then [m] messages (both
    non-negative), hand out together what one fetch of [n + m] hands out,
    and leave the same queue. *)
Theorem receive_batch_twice q n m :
  0 ≤ n → 0 ≤ m →
  ∃ b1 q1 b2 q2,
    receive_batch Completed q n = (Returned b1, q1) ∧
    receive_batch Completed q1 m = (Returned b2, q2) ∧
    receive_batch Completed q (n + m) = (Returned (b1 ++ b2), q2).
Proof.
  intros Hn Hm. unfold receive_batch.
  set (L := length (messages q)).
  set (k1 := Nat.min (Z.to_nat n) L).
  set (q1 := {| messages := drop k1 (messages q) |}).
  set (k2 := Nat.min (Z.to_nat m) (length (messages q1))).
  exists (take k1 (messages q)), q1, (take k2 (messages q1)),
    {| messages := drop k2 (messages q1) |}.
  rewrite (take_batch_front q n), (take_batch_front q1 m), (take_batch_front q (n + m))
    by lia.
  split_and!; [done..|]. fold L. unfold k2, q1. simpl.
  rewrite length_drop, take_take_drop, drop_drop. fold L.
  replace (k1 + Nat.min (Z.to_nat m) (L - k1))%nat
    with (Nat.min (Z.to_nat (n + m)) L) by lia.
  done.
Qed.

Lemma receive_batch_twice_witness :
  ∃ b1 q1 b2 q2,
    receive_batch Completed abc 1 = (Returned b1, q1) ∧
    receive_batch Completed q1 5 = (Returned b2, q2) ∧
    receive_batch Completed abc (1 + 5) = (Returned (b1 ++ b2), q2).
Proof. apply (receive_batch_twice abc 1 5); lia. Defined.
End more_queue_facts.

(** ** The loop and its queue *)

Lemma in_flight_finished l :
  Forall fin l → filter (λ t, is_finished t = false) l = [].
Proof.
  induction 1 as [|t l Ht _ IH]; [done|].
  rewrite filter_cons_False; [done|]. simpl in Ht. congruence.
Qed.

Section more_loop_facts.
Variable handler : MessageHandler.
Variable batch_size : Z.
Local Abbreviation run := (run handler batch_size).
Local Abbreviation step := (step handler batch_size).
Local Abbreviation resume_main := (resume_main handler batch_size).
Local Abbreviation process_queue_forever := (process_queue_forever handler batch_size).
Local Abbreviation quiesce := (quiesce handler batch_size).

(** What resuming the loop does to the queue, the calls and the tasks:
    nothing, or one fetch whose batch, if there is one, is dispatched. *)
Lemma resume_main_fetches st :
  (queue (resume_main st) = queue st ∧ calls (resume_main st) = calls st ∧
   tasks (resume_main st) = tasks st ∧ base (resume_main st) = base st)
  ∨ (loc st = AtFetchSleep ∧ must_cancel st = false ∧
     queue (resume_main st) = (take_batch (queue st) batch_size).2 ∧
     calls (resume_main st) = calls st ++ (take_batch (queue st) batch_size).1 ∧
     tasks (resume_main st) =
       tasks st ++ ((λ m, NotStarted (handler m) false) <$>
                      (take_batch (queue st) batch_size).1) ∧
     ((take_batch (queue st) batch_size).1 = [] ∧ loc (resume_main st) = AtBackoffSleep
        ∧ base (resume_main st) = base st
      ∨ (take_batch (queue st) batch_size).1 ≠ [] ∧ loc (resume_main st) = AtGather
        ∧ base (resume_main st) = length (tasks st))).
Proof.
  unfold resume_main, join_outcome, receive_batch, raise_in_loop.
  destruct (loc st) eqn:Hl; [| | |by left].
  - destruct (must_cancel st) eqn:Hm; [by left|]. right.
    destruct (take_batch _ _) as [[|m batch] q']; simpl.
    + rewrite !app_nil_r. split_and!; try done. by left.
    + split_and!; try done; [by rewrite <- list_fmap_compose|]. by right.
  - left. by destruct (must_cancel st).
  - left. destruct (outer st) as [r|]; [|done].
    destruct (must_cancel st); [done|]. by destruct r.
Qed.

(** X3: in every run, the messages the handler has been called with,
    followed by the pending messages, are the messages the queue started
    with: the loop hands every message it takes from the queue to the
    handler exactly once, in queue order, it never puts a message back,
    and it creates one handler task per message taken. *)
Theorem loop_conserves_messages q schedule :
  let st := process_queue_forever q schedule in
  calls st ++ messages (queue st) = messages q
  ∧ length (tasks st) = length (calls st).
Proof.
  unfold process_queue_forever.
  apply (run_invariant handler batch_size
           (λ st, calls st ++ messages (queue st) = messages q
                  ∧ length (tasks st) = length (calls st))); [done|].
  intros [|i| |] st [Hc Hl]; simpl.
  - destruct (resume_main_fetches st)
      as [(-> & -> & -> & _)|(_ & _ & -> & -> & -> & _)]; [done|].
    rewrite <- app_assoc, take_batch_conserves, !length_app, length_fmap. split; [done|lia].
  - by rewrite calls_resume_child, queue_resume_child, length_tasks_resume_child.
  - by rewrite calls_run_callback, queue_run_callback, tasks_run_callback.
  - by rewrite calls_cancel, queue_cancel, length_tasks_cancel.
Qed.

Lemma children_bounded_step e st :
  (length (children st) ≤ Z.to_nat batch_size)%nat →
  (length (children (step e st)) ≤ Z.to_nat batch_size)%nat.
Proof.
  intros Hb. destruct e as [|i| |]; simpl.
  - unfold children in *.
    destruct (resume_main_fetches st)
      as [(_ & _ & -> & ->)|(_ & _ & _ & _ & -> & [(-> & _ & ->)|(_ & _ & ->)])];
      [done|by rewrite app_nil_r|].
    rewrite drop_app_length, length_fmap. apply take_batch_length.
  - unfold children in *.
    by rewrite !length_drop, length_tasks_resume_child, base_resume_child, <- length_drop.
  - unfold children in *. by rewrite tasks_run_callback, base_run_callback.
  - by rewrite children_cancel.
Qed.

(** X4: in every run, at most [batch_size] handler invocations are in
    flight at any moment (none when [batch_size ≤ 0]). *)
Theorem in_flight_bounded q schedule :
  (length (in_flight (process_queue_forever q schedule)) ≤ Z.to_nat batch_size)%nat.
Proof.
  pose proof (well_formed_run handler batch_size q schedule) as (_ & Hold & _).
  assert (length (children (process_queue_forever q schedule)) ≤ Z.to_nat batch_size)%nat
    as Hb.
  { unfold process_queue_forever. apply run_invariant; [|apply children_bounded_step].
    unfold children. simpl. lia. }
  unfold in_flight.
  rewrite <- (take_drop (base (process_queue_forever q schedule))
                (tasks (process_queue_forever q schedule))).
  rewrite filter_app, (in_flight_finished _ Hold). simpl.
  etrans; [apply length_filter|done].
Qed.

(** X5: whenever the loop is in its back-off sleep, nothing could have
    been fetched: [batch_size ≤ 0] or no message is pending.  With a
    positive [batch_size] the loop never sleeps the poll interval while
    messages are pending. *)
Theorem backoff_only_when_idle q schedule :
  let st := process_queue_forever q schedule in
  loc st = AtBackoffSleep → batch_size ≤ 0 ∨ messages (queue st) = [].
Proof.
  unfold process_queue_forever.
  apply (run_invariant handler batch_size
           (λ st, loc st = AtBackoffSleep → batch_size ≤ 0 ∨ messages (queue st) = []));
    [done|].
  intros [|i| |] st IH; simpl.
  - unfold resume_main, join_outcome, receive_batch, raise_in_loop.
    destruct (loc st) eqn:Hl; [| | |by rewrite Hl].
    + destruct (must_cancel st); [done|].
      pose proof (take_batch_empty_iff (queue st) batch_size) as Hiff.
      pose proof (take_batch_unchanged (queue st) batch_size) as Hsame.
      destruct (take_batch _ _) as [[|m batch] q']; simpl in *; [|done].
      intros _. rewrite (Hsame eq_refl). by apply Hiff.
    + by destruct (must_cancel st).
    + destruct (outer st) as [r|]; [|by rewrite Hl].
      destruct (must_cancel st); [done|]. by destruct r as [|[]].
  - by rewrite loc_resume_child, queue_resume_child.
  - by rewrite loc_run_callback, queue_run_callback.
  - by rewrite loc_cancel, queue_cancel.
Qed.

(** One resumption of a loop that has nothing to fetch. *)
Lemma resume_main_idle st :
  (take_batch (queue st) batch_size).1 = [] →
  tasks st = [] → loc st = AtFetchSleep ∨ loc st = AtBackoffSleep →
  calls (resume_main st) = calls st ∧ tasks (resume_main st) = [] ∧
  queue (resume_main st) = queue st ∧ must_cancel (resume_main st) = false ∧
  (if must_cancel st then loc (resume_main st) = Stopped (Returned ())
   else loc (resume_main st) = AtFetchSleep ∨ loc (resume_main st) = AtBackoffSleep).
Proof.
  intros He Ht Hl. pose proof (take_batch_unchanged _ _ He) as Hsame.
  unfold resume_main, join_outcome, receive_batch, raise_in_loop.
  destruct Hl as [Hl|Hl]; rewrite Hl.
  - destruct (must_cancel st) eqn:Hm; [done|].
    destruct (take_batch _ _) as [b q']. simpl in *. subst b q'. simpl.
    split_and!; [done..|by right].
  - destruct (must_cancel st) eqn:Hm; simpl; [done|]. split_and!; [done..|by left].
Qed.

(** X6: a loop with nothing to fetch ([batch_size ≤ 0], or an empty
    queue) only polls: it never calls the handler, never creates a task
    and never touches the queue; it is at one of its two sleeps until it
    is cancelled, and once cancelled it can only return normally.  With
    [batch_size ≤ 0] pending messages are never processed. *)
Theorem idle_loop_polls q schedule :
  batch_size ≤ 0 ∨ messages q = [] →
  let st := process_queue_forever q schedule in
  calls st = [] ∧ tasks st = [] ∧ queue st = q
  ∧ (loc st = AtFetchSleep ∨ loc st = AtBackoffSleep ∨ loc st = Stopped (Returned ()))
  ∧ (forallb (λ e, negb (is_cancel e)) schedule = true →
     loc st = AtFetchSleep ∨ loc st = AtBackoffSleep).
Proof.
  intros Hidle st.
  assert (∀ st', queue st' = q → (take_batch (queue st') batch_size).1 = []) as Hnone.
  { intros st' ->. by apply take_batch_empty_iff. }
  assert (calls st = [] ∧ tasks st = [] ∧ queue st = q
          ∧ (loc st = AtFetchSleep ∨ loc st = AtBackoffSleep
             ∨ loc st = Stopped (Returned ()))) as (Hc & Ht & Hq & Hl).
  { unfold st, process_queue_forever. apply run_invariant; [repeat split; by left|].
    intros [|i| |] st' (Hc & Ht & Hq & Hl); simpl.
    - destruct Hl as [Hl|[Hl|Hl]].
      + destruct (resume_main_idle st' (Hnone _ Hq) Ht (or_introl Hl))
          as (-> & -> & -> & _ & Hl').
        split_and!; [done..|]. destruct (must_cancel st'); tauto.
      + destruct (resume_main_idle st' (Hnone _ Hq) Ht (or_intror Hl))
          as (-> & -> & -> & _ & Hl').
        split_and!; [done..|]. destruct (must_cancel st'); tauto.
      + unfold resume_main. rewrite Hl. simpl. rewrite ?Hl. tauto.
    - unfold resume_child. rewrite Ht. simpl. tauto.
    - rewrite calls_run_callback, tasks_run_callback, queue_run_callback,
        loc_run_callback. tauto.
    - rewrite calls_cancel, queue_cancel, loc_cancel. split_and!; [done| |done..].
      apply nil_length_inv. by rewrite length_tasks_cancel, Ht. }
  split_and!; [done..|]. intros Hs.
  assert (tasks st = [] ∧ queue st = q ∧ must_cancel st = false
          ∧ (loc st = AtFetchSleep ∨ loc st = AtBackoffSleep)) as (_ & _ & _ & Hl').
  { unfold st, process_queue_forever.
    apply (run_invariant_on handler batch_size (λ e, negb (is_cancel e)));
      [repeat split; by left| |done].
    intros [|i| |] st' He (Ht' & Hq' & Hm & Hl'); try done; simpl.
    - destruct (resume_main_idle st' (Hnone _ Hq') Ht' Hl') as (_ & -> & -> & -> & Hl'').
      rewrite Hm in Hl''. done.
    - unfold resume_child. rewrite Ht'. simpl. done.
    - by rewrite tasks_run_callback, queue_run_callback, must_cancel_run_callback,
        loc_run_callback. }
  done.
Qed.

(** X7: a cancellation at the sleep of a fetch or at the back-off sleep
    takes no message from the queue and calls no handler: the loop
    returns with the queue and the handler calls as they were. *)
Theorem cancel_at_sleep_keeps_queue st schedule :
  loc st = AtFetchSleep ∨ loc st = AtBackoffSleep →
  let st' := run (Cancel :: schedule ++ [ResumeMain]) st in
  loc st' = Stopped (Returned ()) ∧ queue st' = queue st ∧ calls st' = calls st.
Proof.
  intros Hl.
  change (Cancel :: schedule ++ [ResumeMain]) with ((Cancel :: schedule) ++ [ResumeMain]).
  simpl. rewrite run_snoc. simpl.
  assert (cancelled_asleep (run schedule (cancel st))
          ∧ queue (run schedule (cancel st)) = queue st
          ∧ calls (run schedule (cancel st)) = calls st) as (Hcan & Hq & Hc).
  { apply run_invariant.
    - rewrite queue_cancel, calls_cancel. split; [|done].
      unfold cancelled_asleep, cancel. by destruct Hl as [Hl|Hl]; rewrite Hl; simpl; rewrite Hl.
    - intros e st' (Hcan & Hq & Hc).
      split; [by apply cancelled_asleep_step|]. rewrite <- Hq, <- Hc.
      destruct e as [|i| |]; simpl.
      + revert Hcan. unfold cancelled_asleep, resume_main, receive_batch, raise_in_loop.
        destruct (loc st') eqn:Hl'; [by intros ->..|done|by intros _].
      + by rewrite queue_resume_child, calls_resume_child.
      + by rewrite queue_run_callback, calls_run_callback.
      + by rewrite queue_cancel, calls_cancel. }
  split; [by apply cancelled_asleep_resumed|]. rewrite <- Hq, <- Hc.
  revert Hcan. unfold cancelled_asleep, resume_main, receive_batch, raise_in_loop.
  destruct (loc (run schedule (cancel st))) eqn:Hl'; [by intros ->..|done|by intros _].
Qed.

Lemma finished_persists_run s st i t :
  tasks st !! i = Some t → is_finished t = true → tasks (run s st) !! i = Some t.
Proof.
  intros Ht Hf. apply (run_invariant handler batch_size (λ st', tasks st' !! i = Some t));
    [done|].
  intros e st' Ht'. by apply finished_persists_step.
Qed.

Lemma raised_by_handler_step ev e st :
  raised_by_handler e st → raised_by_handler e (step ev st).
Proof. intros [i Hi]. exists i. by apply finished_persists_step. Qed.

Lemma traced_step e st : logged st → traced st → traced (step e st).
Proof.
  intros Hlog [Hout Hloc]. destruct e as [|i| |]; simpl.
  - unfold resume_main, join_outcome, receive_batch, raise_in_loop.
    destruct (loc st) eqn:Hl.
    + destruct (must_cancel st); simpl.
      { split; [done|]. intros e. simpl. done. }
      destruct (take_batch _ _) as [b q']. simpl.
      destruct (is_empty b); simpl.
      * split; [done|]. intros e. simpl. by rewrite ?Hl.
      * split; [|done]. intros reason. simpl. by destruct (is_empty (map handler b)).
    + destruct (must_cancel st); simpl; split; done.
    + destruct (must_cancel st);
        destruct (outer st) as [[[]|[|reason]]|] eqn:Ho; simpl; split; try done.
      all: try (intros e'; simpl; by rewrite ?Hl).
      all: try (intros r' Hr'; simpl in Hr'; rewrite ?Ho in Hr'; by apply Hout).
      intros e' He'. simpl in He'. injection He' as <-.
      split; [by eexists|]. by apply Hout.
    + split; [done|]. intros e. rewrite Hl. apply Hloc.
  - split.
    + intros reason. rewrite outer_resume_child. intros Ho.
      by apply (raised_by_handler_step (ResumeChild i)), Hout.
    + intros e. rewrite loc_resume_child. intros Hl. destruct (Hloc e Hl) as [? ?].
      split; [done|]. by apply (raised_by_handler_step (ResumeChild i)).
  - split.
    + intros reason. unfold run_callback.
      destruct (callbacks st) as [|[j r] rest] eqn:Hcb; [apply Hout|].
      unfold done_callback, raised_by_handler. simpl.
      destruct (outer st) as [o|] eqn:Ho; [intros [= ->]; by apply Hout|].
      destruct r as [[]|e].
      * destruct (_ && _); [|done]. by destruct (cancel_requested st).
      * intros [= ->]. exists j. apply Hlog. rewrite Hcb. apply elem_of_app. right. apply elem_of_cons. by left.
    + intros e. rewrite loc_run_callback. intros Hl. destruct (Hloc e Hl) as [? ?].
      split; [done|]. by apply (raised_by_handler_step RunCallback).
  - split.
    + intros reason. rewrite outer_cancel. intros Ho.
      by apply (raised_by_handler_step Cancel), Hout.
    + intros e. rewrite loc_cancel. intros Hl. destruct (Hloc e Hl) as [? ?].
      split; [done|]. by apply (raised_by_handler_step Cancel).
Qed.

Lemma traced_run q s : traced (process_queue_forever q s).
Proof.
  assert (logged (process_queue_forever q s) ∧ traced (process_queue_forever q s))
    as [_ ?]; [|done].
  unfold process_queue_forever. apply run_invariant.
  - split; [|by split]. intros i r. simpl. by intros ?%elem_of_nil.
  - intros e st [Hlog Htr]. split; [by apply logged_step|by apply traced_step].
Qed.

Lemma tasks_of_calls_step (P : string → task → Prop) e st :
  (∀ m, P m (NotStarted (handler m) false)) →
  (∀ m t, P m t → P m (resume_task t)) →
  (∀ m t, P m t → P m (cancel_task t)) →
  tasks_of_calls P st → tasks_of_calls P (step e st).
Proof.
  unfold tasks_of_calls. intros Hnew Hres Hcan Hst. destruct e as [|i| |]; simpl.
  - destruct (resume_main_fetches st)
      as [(_ & -> & -> & _)|(_ & _ & _ & -> & -> & _)]; [done|].
    apply Forall2_app; [done|]. apply Forall2_fmap_l, Forall_Forall2_diag, Forall_forall.
    intros m _. apply Hnew.
  - rewrite calls_resume_child. apply Forall2_same_length_lookup.
    split; [by rewrite length_tasks_resume_child; eapply Forall2_length|].
    intros j t' m. rewrite tasks_resume_child. intros Ht' Hm.
    destruct (tasks st !! j) as [t|] eqn:Ht; [|by destruct (decide _)].
    pose proof (Forall2_lookup_lr _ _ _ _ _ _ Hst Ht Hm) as HP.
    destruct (decide (i = j)); simpl in Ht'; injection Ht' as <-; [by apply Hres|done].
  - by rewrite tasks_run_callback, calls_run_callback.
  - rewrite calls_cancel. unfold cancel. destruct (loc st); try done.
    destruct (outer st); [done|]. destruct (forallb _ _); [done|]. simpl.
    rewrite <- (take_drop (base st) (calls st)). unfold children.
    apply Forall2_app; [by apply Forall2_take|]. apply Forall2_fmap_l.
    eapply Forall2_impl; [by apply Forall2_drop|]. intros t m. apply Hcan.
Qed.

Lemma error_free_run_coro c : error_free c = true → error_free_task (run_coro c) = true.
Proof. by destruct c as [|[]|]. Qed.

Lemma sound_task_resume m t : sound_task handler m t → sound_task handler m (resume_task t).
Proof.
  unfold sound_task. intros Ht Hm. specialize (Ht Hm).
  destruct t as [c []|k h []|r]; simpl in *; try done.
  - by apply error_free_run_coro.
  - apply andb_prop in Ht as [_ ?]. by apply error_free_run_coro.
  - apply andb_prop in Ht as [? _]. by apply error_free_run_coro.
Qed.

Lemma sound_task_cancel m t : sound_task handler m t → sound_task handler m (cancel_task t).
Proof. unfold sound_task. intros Ht Hm. specialize (Ht Hm). by destruct t. Qed.

Lemma sound_tasks_run q s :
  tasks_of_calls (sound_task handler) (process_queue_forever q s).
Proof.
  unfold process_queue_forever. apply run_invariant; [by constructor|].
  intros e st. apply tasks_of_calls_step;
    [intros m; by unfold sound_task|apply sound_task_resume|apply sound_task_cancel].
Qed.

Lemma conserved_step e st :
  calls (step e st) ++ messages (queue (step e st)) = calls st ++ messages (queue st).
Proof.
  destruct e as [|i| |]; simpl.
  - destruct (resume_main_fetches st)
      as [(-> & -> & _)|(_ & _ & -> & -> & _)]; [done|].
    by rewrite <- app_assoc, take_batch_conserves.
  - by rewrite calls_resume_child, queue_resume_child.
  - by rewrite calls_run_callback, queue_run_callback.
  - by rewrite calls_cancel, queue_cancel.
Qed.

Lemma called_with_queued q s m :
  m ∈ calls (process_queue_forever q s) → m ∈ messages q.
Proof.
  assert (calls (process_queue_forever q s)
            ++ messages (queue (process_queue_forever q s)) = messages q) as <-.
  { unfold process_queue_forever. apply run_invariant; [done|].
    intros e st <-. apply conserved_step. }
  intros Hm. apply elem_of_app. by left.
Qed.

(** X8: the loop raises nothing of its own.  When it has ended by raising
    an exception, the exception is a handler error, the handler task of
    one of the calls in the call log has ended by raising exactly that
    error, and the coroutine of that call is one that can raise a handler
    error.  That call was made with a message of the queue. *)
Theorem loop_raises_only_handler_errors q schedule e :
  let st := process_queue_forever q schedule in
  loc st = Stopped (Raised e) →
  ∃ i reason m, e = HandlerError reason ∧
    tasks st !! i = Some (Finished (Raised e)) ∧ calls st !! i = Some m ∧
    error_free (handler m) = false ∧ m ∈ messages q.
Proof.
  intros st Hl. subst st. destruct (traced_run q schedule) as [_ Hloc].
  destruct (Hloc e Hl) as [[reason ->] [i Hi]].
  pose proof (sound_tasks_run q schedule) as Hsound.
  destruct (lookup_lt_is_Some_2 (calls (process_queue_forever q schedule)) i) as [m Hm].
  { rewrite <- (Forall2_length _ _ _ Hsound). by eapply lookup_lt_Some. }
  exists i, reason, m. split_and!; [done..| |].
  - pose proof (Forall2_lookup_lr _ _ _ _ _ _ Hsound Hi Hm) as Hs.
    unfold sound_task in Hs. simpl in Hs.
    destruct (error_free (handler m)); [|done]. by rewrite Hs.
  - apply (called_with_queued q schedule). by eapply list_elem_of_lookup_2.
Qed.

Lemma error_free_tasks q s :
  Forall (λ m, error_free (handler m) = true) (messages q) →
  Forall (λ t, error_free_task t = true) (tasks (process_queue_forever q s)).
Proof.
  intros Hq. apply Forall_lookup. intros i t Hi.
  pose proof (sound_tasks_run q s) as Hsound.
  destruct (lookup_lt_is_Some_2 (calls (process_queue_forever q s)) i) as [m Hm].
  { rewrite <- (Forall2_length _ _ _ Hsound). by eapply lookup_lt_Some. }
  apply (Forall2_lookup_lr _ _ _ _ _ _ Hsound Hi Hm).
  rewrite Forall_forall in Hq. apply Hq, (called_with_queued q s).
  by eapply list_elem_of_lookup_2.
Qed.

Lemma error_free_not_failed l :
  Forall (λ t, error_free_task t = true) l → existsb handler_failed l = false.
Proof.
  induction 1 as [|t l Ht _ IH]; [done|]. simpl. rewrite IH.
  by destruct t as [| |[|[]]].
Qed.

(** A loop none of whose handler tasks ever ends with an error of its
    own ends by returning, and a cancellation makes it return once the
    handler tasks and their callbacks have run and it is resumed. *)
Lemma cancelled_loop_returns q :
  (∀ s, existsb handler_failed (tasks (process_queue_forever q s)) = false) →
  (∀ s r, loc (process_queue_forever q s) = Stopped r → r = Returned ()) ∧
  (∀ before after,
     let st := run (Cancel :: after) (process_queue_forever q before) in
     loc (run (quiesce st ++ [ResumeMain]) st) = Stopped (Returned ())).
Proof.
  intros Hok.
  assert (∀ s r, loc (process_queue_forever q s) = Stopped r → r = Returned ()) as Hret.
  { intros s [[]|e] Hl; [done|]. destruct (traced_run q s) as [_ Hloc].
    destruct (Hloc e Hl) as [[reason ->] [i Hi]].
    assert (existsb handler_failed (tasks (process_queue_forever q s)) = true) as Hex
      by (apply existsb_lookup; by eexists i, _).
    by rewrite Hok in Hex. }
  split; [done|]. intros before after st. rewrite run_snoc. simpl.
  set (st0 := process_queue_forever q before).
  assert (run (quiesce st) st = run (after ++ quiesce st) (cancel st0)) as Hrun
    by (unfold st; simpl; by rewrite run_app).
  destruct (loc st0) as [| | |r] eqn:Hl.
  - apply cancelled_asleep_resumed. rewrite Hrun.
    apply run_invariant; [|intros e st'; apply cancelled_asleep_step].
    unfold cancelled_asleep, cancel. rewrite Hl. simpl. by rewrite Hl.
  - apply cancelled_asleep_resumed. rewrite Hrun.
    apply run_invariant; [|intros e st'; apply cancelled_asleep_step].
    unfold cancelled_asleep, cancel. rewrite Hl. simpl. by rewrite Hl.
  - destruct (quiesce_settles handler batch_size st) as [Hfin Hcb].
    apply cancelling_settled; [|by do 2 apply well_formed_run_from; apply well_formed_run|done..].
    rewrite Hrun. apply cancelling_run;
      [by apply cancelling_at_join|apply logged_cancel, logged_run|].
    rewrite <- Hrun. unfold st, st0, process_queue_forever.
    rewrite <- !run_app. apply Hok.
  - pose proof (Hret _ _ Hl) as ->.
    assert (loc (run (quiesce st) st) = Stopped (Returned ())) as Hl'.
    { rewrite Hrun. apply stopped_run. unfold cancel. by rewrite Hl. }
    unfold resume_main. by rewrite Hl'.
Qed.

(** X9: with a handler that has no path to an error of its own on the
    messages of the queue (it may sleep, return, or end cancelled), no
    run of the loop ends by raising, and a cancellation delivered at any
    moment makes the loop return normally once the handler tasks have run
    to their ends, their callbacks have run, and the loop is resumed. *)
Theorem error_free_loop_shuts_down q before after :
  Forall (λ m, error_free (handler m) = true) (messages q) →
  (∀ r, loc (process_queue_forever q before) = Stopped r → r = Returned ()) ∧
  let st := run (Cancel :: after) (process_queue_forever q before) in
  loc (run (quiesce st ++ [ResumeMain]) st) = Stopped (Returned ()).
Proof.
  intros Hq. destruct (cancelled_loop_returns q) as [Hret Hdown].
  { intros s. by apply error_free_not_failed, error_free_tasks. }
  split; [apply Hret|apply Hdown].
Qed.

Lemma healthy_step e st :
  is_cancel e = false →
  healthy st ∧ Forall (λ m, succeeds (handler m) = true) (messages (queue st)) →
  healthy (step e st) ∧
  Forall (λ m, succeeds (handler m) = true) (messages (queue (step e st))).
Proof.
  intros He [[Hm Hh] Hq]. destruct e as [|i| |]; [| | |done]; simpl.
  - unfold resume_main, join_outcome, receive_batch, raise_in_loop. rewrite Hm.
    destruct (loc st) eqn:Hl; [| | |done].
    + pose proof (take_batch_conserves (queue st) batch_size) as Hc.
      destruct (take_batch _ _) as [b q']. simpl in *.
      rewrite <- Hc in Hq. apply Forall_app in Hq as [Hb Hq'].
      destruct b as [|m b]; simpl; [done|].
      split; [|done]. split; [done|]. simpl.
      by apply (all_succeeding_dispatch handler (m :: b)).
    + simpl. by rewrite ?Hl.
    + destruct (outer st) as [r|] eqn:Ho.
      * destruct Hh as (_ & _ & _ & Hout). rewrite Ho in Hout. by subst r.
      * split; [|done]. split; [done|]. by rewrite Hl.
  - rewrite queue_resume_child. split; [|done]. unfold healthy.
    rewrite must_cancel_resume_child, loc_resume_child. split; [done|].
    destruct (loc st); try done. by apply all_succeeding_resume_child.
  - rewrite queue_run_callback. split; [|done]. unfold healthy.
    rewrite must_cancel_run_callback, loc_run_callback. split; [done|].
    destruct (loc st); try done. by apply all_succeeding_run_callback.
Qed.

(** X10: the loop stops only when it is cancelled.  With a handler that
    returns on every message of the queue when left alone, a run in which
    the loop's task is not cancelled never ends: not by returning, and
    not by raising.  Draining the queue does not end it. *)
Theorem loop_runs_until_cancelled q schedule :
  Forall (λ m, succeeds (handler m) = true) (messages q) →
  forallb (λ e, negb (is_cancel e)) schedule = true →
  ∀ r, loc (process_queue_forever q schedule) ≠ Stopped r.
Proof.
  intros Hq Hs r.
  assert (healthy (process_queue_forever q schedule) ∧
          Forall (λ m, succeeds (handler m) = true)
            (messages (queue (process_queue_forever q schedule)))) as [[_ Hh] _].
  { unfold process_queue_forever.
    apply (run_invariant_on handler batch_size (λ e, negb (is_cancel e))); [done| |done].
    intros e st He. apply healthy_step. by destruct (is_cancel e). }
  intros Hl. by rewrite Hl in Hh.
Qed.

Lemma idle_handler_events s st :
  forallb is_handler_event s = true →
  Forall fin (tasks st) → callbacks st = [] → run s st = st.
Proof.
  intros Hs Hfin Hcb. induction s as [|e s IH]; [done|].
  simpl in Hs. apply andb_prop in Hs as [He Hs].
  assert (step e st = st) as Hstep.
  { destruct e as [|i| |]; try done; simpl.
    - unfold resume_child. destruct (tasks st !! i) as [t|] eqn:Hi; [|done].
      pose proof (Forall_lookup_1 _ _ _ _ Hfin Hi) as Hf. by destruct t.
    - unfold run_callback. by rewrite Hcb. }
  simpl. fold (step e st). fold (run s (step e st)). rewrite Hstep. by apply IH.
Qed.

Lemma queue_run_handler_events s st :
  forallb is_handler_event s = true → queue (run s st) = queue st.
Proof.
  apply (run_invariant_on handler batch_size is_handler_event
           (λ st', queue st' = queue st)); [done|].
  intros [|i| |] st' He <-; try done; simpl;
    [apply queue_resume_child|apply queue_run_callback].
Qed.

(** One turn of an undisturbed loop with a succeeding handler: the batch
    at the front of the queue is fetched and handled, and the loop is
    back at its fetch. *)
Lemma turn_serves st :
  between_batches st →
  Forall (λ m, succeeds (handler m) = true) (messages (queue st)) →
  let st' := run (turn handler batch_size st) st in
  between_batches st' ∧
  calls st' = calls st ++ (take_batch (queue st) batch_size).1 ∧
  queue st' = (take_batch (queue st) batch_size).2 ∧
  length (tasks st') =
    (length (tasks st) + length (take_batch (queue st) batch_size).1)%nat.
Proof.
  intros (Hl & Hm & Hcb & Hdone) Hq. unfold turn. simpl. rewrite run_snoc. simpl.
  fold (resume_main st). set (st1 := resume_main st).
  assert (Forall fin (tasks st)) as Hfin by (eapply Forall_impl; [done|by intros t ->]).
  pose proof (take_batch_conserves (queue st) batch_size) as Hc.
  assert (st1 = match (take_batch (queue st) batch_size).1 with
                | [] => goto AtBackoffSleep (take_batch (queue st) batch_size).2 st
                | _ => dispatch handler (take_batch (queue st) batch_size).1
                         (goto AtFetchSleep (take_batch (queue st) batch_size).2 st)
                end) as Hst1.
  { unfold st1, resume_main, receive_batch. rewrite Hl, Hm.
    destruct (take_batch _ _) as [[|m b] q']; done. }
  destruct (take_batch (queue st) batch_size) as [b q']. simpl in *.
  destruct b as [|m b].
  - rewrite idle_handler_events;
      [|apply handler_events_quiesce|by rewrite Hst1|by rewrite Hst1].
    rewrite Hst1. unfold resume_main. simpl. rewrite Hm. simpl.
    rewrite app_nil_r. split_and!; [|done..|lia]. by split_and!.
  - set (st2 := run (quiesce st1) st1).
    assert (all_succeeding st1) as Hall.
    { rewrite Hst1. apply all_succeeding_dispatch.
      rewrite <- Hc in Hq. by apply Forall_app in Hq as [? _]. }
    destruct (during_dispatch handler batch_size st1 (quiesce st1)
                (handler_events_quiesce handler batch_size st1) Hall)
      as (Hall2 & Hcalls & Hbase & Hlen & Hloc & Hmc).
    fold st2 in Hall2, Hcalls, Hbase, Hlen, Hloc, Hmc.
    destruct (quiesce_settles handler batch_size st1) as [Hfin2 Hcb2].
    fold st2 in Hfin2, Hcb2.
    assert (queue st2 = q') as Hq2.
    { unfold st2. rewrite queue_run_handler_events by apply handler_events_quiesce.
      by rewrite Hst1. }
    assert (base st1 = length (tasks st)) as Hb1 by by rewrite Hst1.
    assert (tasks st1 = tasks st ++ map (λ c, NotStarted c false) (map handler (m :: b)))
      as Ht1 by by rewrite Hst1.
    assert (outer st2 = Some (Returned ())) as Hout.
    { destruct Hall2 as (_ & _ & _ & Ho). destruct (outer st2) as [r|]; [by subst r|].
      destruct Ho as [Ho|Ho]; [|done]. destruct Ho. unfold children. by apply Forall_drop. }
    assert (resume_main st2 = goto AtFetchSleep (queue st2) st2) as ->.
    { unfold resume_main, join_outcome. rewrite Hloc, Hst1. simpl.
      rewrite Hout, Hmc, Hst1. simpl. by rewrite Hm. }
    simpl. split_and!.
    + split_and!; [done| |done|]; simpl.
      { by rewrite Hmc, Hst1. }
      apply Forall_lookup. intros i t Hi.
      destruct (decide (i < base st2)%nat) as [Hlt|Hge].
      * rewrite Hbase, Hb1 in Hlt.
        destruct (lookup_lt_is_Some_2 (tasks st) i Hlt) as [t0 Ht0].
        pose proof (Forall_lookup_1 _ _ _ _ Hdone Ht0) as ->.
        assert (tasks st2 !! i = Some (Finished (Returned ()))) as Hi'.
        { apply finished_persists_run; [|done]. rewrite Ht1. by apply lookup_app_l_Some. }
        rewrite Hi' in Hi. by injection Hi as <-.
      * destruct Hall2 as (_ & Hch & _).
        pose proof (Forall_lookup_1 _ _ _ _ Hfin2 Hi) as Hf.
        rewrite <- children_lookup in Hi by lia.
        pose proof (Forall_lookup_1 _ _ _ _ Hch Hi) as Hs.
        by destruct t as [| |[[]|]].
    + by rewrite Hcalls, Hst1.
    + done.
    + rewrite Hlen, Ht1, length_app, !length_map. done.
Qed.

Lemma turns_drain n st :
  0 < batch_size →
  between_batches st →
  Forall (λ m, succeeds (handler m) = true) (messages (queue st)) →
  (length (messages (queue st)) ≤ n)%nat →
  let st' := run (turns handler batch_size n st) st in
  between_batches st' ∧ calls st' = calls st ++ messages (queue st) ∧
  messages (queue st') = [] ∧
  length (tasks st') = (length (tasks st) + length (messages (queue st)))%nat.
Proof.
  intros Hpos. revert st. induction n as [|n IH]; intros st Hbb Hq Hn.
  - simpl. apply Nat.le_0_r, nil_length_inv in Hn. rewrite Hn, app_nil_r. simpl.
    split_and!; [done..|lia].
  - change (turns handler batch_size (S n) st)
      with (turn handler batch_size st
              ++ turns handler batch_size n (run (turn handler batch_size st) st)).
    cbv zeta. rewrite run_app. set (st1 := run (turn handler batch_size st) st).
    destruct (turn_serves st Hbb Hq) as (Hbb1 & Hc1 & Hq1 & Hl1).
    fold st1 in Hbb1, Hc1, Hq1, Hl1.
    pose proof (take_batch_conserves (queue st) batch_size) as Hc.
    pose proof (take_batch_empty_iff (queue st) batch_size) as Hiff.
    rewrite <- Hq1 in Hc.
    assert (Forall (λ m, succeeds (handler m) = true) (messages (queue st1))) as Hq'.
    { rewrite <- Hc in Hq. by apply Forall_app in Hq as [_ ?]. }
    assert (length (messages (queue st1)) ≤ n)%nat as Hn'.
    { destruct (take_batch (queue st) batch_size).1 as [|m b] eqn:Hb.
      - destruct (proj1 Hiff eq_refl) as [?|Hnil]; [lia|].
        simpl in Hc. rewrite Hc, Hnil. simpl. lia.
      - rewrite <- Hc, length_app in Hn. simpl in Hn. lia. }
    destruct (IH st1 Hbb1 Hq' Hn') as (Hbb2 & Hc2 & Hq2 & Hl2).
    split_and!; [done| |done|].
    + by rewrite Hc2, Hc1, <- app_assoc, Hc.
    + rewrite Hl2, Hl1, <- Hc, length_app. lia.
Qed.

(** X11: an undisturbed loop drains its queue.  With a positive
    [batch_size] and a handler that returns on every message of the
    queue, after as many turns as the queue has messages (a turn: the
    loop is resumed, the handler tasks and their callbacks run, the loop
    is resumed again) the handler has been called with every message of
    the queue exactly once and in queue order, every handler task has
    returned, the queue is empty, and the loop is at its next fetch. *)
Theorem loop_drains_queue q n :
  0 < batch_size →
  Forall (λ m, succeeds (handler m) = true) (messages q) →
  (length (messages q) ≤ n)%nat →
  let st := process_queue_forever q (turns handler batch_size n (start q)) in
  calls st = messages q ∧ messages (queue st) = [] ∧
  Forall (λ t, t = Finished (Returned ())) (tasks st) ∧
  length (tasks st) = length (messages q) ∧ loc st = AtFetchSleep.
Proof.
  intros Hpos Hq Hn st.
  destruct (turns_drain n (start q) Hpos) as ((Hl & _ & _ & Hdone) & Hc & Hq' & Hlen);
    [by split_and!|done..|].
  by split_and!.
Qed.
End more_loop_facts.

(** ** Concrete runs of the properties above *)

Lemma backoff_only_when_idle_witness :
  let st := process_queue_forever example_handler 5 abc
              (turn example_handler 5 (start abc) ++ [ResumeMain]) in
  loc st = AtBackoffSleep ∧ calls st = messages abc ∧
  (5 ≤ 0 ∨ messages (queue st) = []).
Proof.
  split; [reflexivity|]. split; [reflexivity|].
  apply (backoff_only_when_idle example_handler 5 abc
           (turn example_handler 5 (start abc) ++ [ResumeMain])).
  reflexivity.
Defined.

Lemma idle_loop_polls_witness :
  let st := process_queue_forever example_handler 0 abc
              [ResumeMain; ResumeMain; ResumeMain] in
  calls st = [] ∧ tasks st = [] ∧ queue st = abc
  ∧ (loc st = AtFetchSleep ∨ loc st = AtBackoffSleep ∨ loc st = Stopped (Returned ()))
  ∧ (forallb (λ e, negb (is_cancel e)) [ResumeMain; ResumeMain; ResumeMain] = true →
     loc st = AtFetchSleep ∨ loc st = AtBackoffSleep).
Proof.
  apply (idle_loop_polls example_handler 0 abc [ResumeMain; ResumeMain; ResumeMain]).
  left. lia.
Defined.

Lemma cancel_at_sleep_keeps_queue_witness :
  let st := process_queue_forever example_handler 2 abc
              (turn example_handler 2 (start abc)) in
  let st' := run example_handler 2 (Cancel :: [ResumeChild 0] ++ [ResumeMain]) st in
  loc st = AtFetchSleep ∧
  loc st' = Stopped (Returned ()) ∧ queue st' = queue st ∧ calls st' = calls st.
Proof.
  split; [reflexivity|].
  apply (cancel_at_sleep_keeps_queue example_handler 2
           (process_queue_forever example_handler 2 abc (turn example_handler 2 (start abc)))
           [ResumeChild 0]).
  left. reflexivity.
Defined.

Lemma loop_raises_only_handler_errors_witness :
  let st := process_queue_forever fails_on_a 5 abc
              [ResumeMain; ResumeChild 0; RunCallback; ResumeMain] in
  loc st = Stopped (Raised (HandlerError "boom")) ∧
  ∃ i reason m, HandlerError "boom" = HandlerError reason ∧
    tasks st !! i = Some (Finished (Raised (HandlerError "boom"))) ∧
    calls st !! i = Some m ∧ error_free (fails_on_a m) = false ∧ m ∈ messages abc.
Proof.
  split; [reflexivity|].
  apply (loop_raises_only_handler_errors fails_on_a 5 abc
           [ResumeMain; ResumeChild 0; RunCallback; ResumeMain]).
  reflexivity.
Defined.

Lemma error_free_loop_shuts_down_witness :
  let before := [ResumeMain; ResumeChild 0] in
  let st := run example_handler 5 (Cancel :: [ResumeChild 2])
              (process_queue_forever example_handler 5 abc before) in
  Forall (λ m, error_free (example_handler m) = true) (messages abc) ∧
  (∀ r, loc (process_queue_forever example_handler 5 abc before) = Stopped r →
        r = Returned ()) ∧
  loc (run example_handler 5 (quiesce example_handler 5 st ++ [ResumeMain]) st)
    = Stopped (Returned ()).
Proof.
  assert (Forall (λ m, error_free (example_handler m) = true) (messages abc)) as Hq
    by (repeat constructor).
  split; [exact Hq|].
  exact (error_free_loop_shuts_down example_handler 5 abc
           [ResumeMain; ResumeChild 0] [ResumeChild 2] Hq).
Defined.

Lemma loop_runs_until_cancelled_witness :
  let schedule := turns example_handler 2 3 (start abc) in
  forallb (λ e, negb (is_cancel e)) schedule = true ∧
  ∀ r, loc (process_queue_forever example_handler 2 abc schedule) ≠ Stopped r.
Proof.
  split; [reflexivity|].
  apply (loop_runs_until_cancelled example_handler 2 abc
           (turns example_handler 2 3 (start abc))).
  - repeat constructor.
  - reflexivity.
Defined.

Lemma loop_drains_queue_witness :
  let st := process_queue_forever example_handler 2 abc
              (turns example_handler 2 3 (start abc)) in
  calls st = messages abc ∧ messages (queue st) = [] ∧
  Forall (λ t, t = Finished (Returned ())) (tasks st) ∧
  length (tasks st) = length (messages abc) ∧ loc st = AtFetchSleep.
Proof.
  apply (loop_drains_queue example_handler 2 abc 3).
  - lia.
  - repeat constructor.
  - simpl. lia.
Defined.

(** ** The demo of the source *)

(** X12: [main] ends normally whatever the event loop does.  The loop it
    started is still running when [main] cancels it after its sleep
    (nothing else cancels it and [example_handler] does not fail); the
    loop's task never ends by raising, so [await task] raises nothing;
    once the handler tasks and their callbacks have run and the loop is
    resumed, the task has returned; and the messages [example_handler]
    was called with, followed by those left in the queue, are
    [msg-0 .. msg-9] in order. *)
Theorem main_shuts_down during_sleep while_awaited :
  let st := main during_sleep while_awaited in
  (forallb (λ e, negb (is_cancel e)) during_sleep = true →
   ∀ r, loc (process_queue_forever example_handler 5 main_queue during_sleep)
          ≠ Stopped r)
  ∧ (∀ r, loc st = Stopped r → r = Returned ())
  ∧ loc (run example_handler 5 (quiesce example_handler 5 st ++ [ResumeMain]) st)
      = Stopped (Returned ())
  ∧ calls st ++ messages (queue st) = messages main_queue.
Proof.
  intros st.
  destruct (cancelled_loop_returns example_handler 5 main_queue) as [Hret Hdown].
  { intros s. apply error_free_not_failed, error_free_tasks, Forall_forall. by intros m _. }
  assert (st = process_queue_forever example_handler 5 main_queue
                 (during_sleep ++ Cancel :: while_awaited)) as Hst
    by (unfold st, main, process_queue_forever; by rewrite run_app).
  split_and!.
  - intros Hs r Hl.
    assert (healthy (process_queue_forever example_handler 5 main_queue during_sleep) ∧
            Forall (λ m, succeeds (example_handler m) = true)
              (messages (queue (process_queue_forever example_handler 5 main_queue
                                  during_sleep)))) as [[_ Hh] _].
    { unfold process_queue_forever.
      apply (run_invariant_on example_handler 5 (λ e, negb (is_cancel e)));
        [split; [done|by apply Forall_forall]| |done].
      intros e st' He. apply healthy_step. by destruct (is_cancel e). }
    by rewrite Hl in Hh.
  - rewrite Hst. apply Hret.
  - apply Hdown.
  - rewrite Hst. unfold process_queue_forever.
    apply (run_invariant example_handler 5
             (λ st', calls st' ++ messages (queue st') = messages main_queue)); [done|].
    intros e st' <-. apply conserved_step.
Qed.
